(** * lampe.simulators.hh: the Hodgkin-Huxley simulator

    A shallow embedding of [src/lampe/simulators/hh.py] and the properties
    its specification states about it.

    Numbers.  The program computes on IEEE doubles; the embedding computes
    on the real numbers [R] (no rounding, no overflow), the idealisation
    under which the specification's formulas are written.  One number is
    not idealised: the length of [np.arange], a count that the rounding of
    one division decides, is taken from the quotient rounded to binary64.
    The statistics of [summarize] can be NaN on an empty window, and a
    NumPy division by zero gives NaN or an infinity, so these live in
    [float].

    Arrays.  A NumPy array whose leading (batch) axes are indexed by a type
    [B] is a function from [B]; element-wise NumPy arithmetic is point-wise
    arithmetic.  An array with one more, trailing axis is an [ndarray]:
    the length of that axis together with one row per batch index.

    Errors.  A Python exception is [None]. *)

From Stdlib Require Import Reals Lra Lia List ZArith FunctionalExtensionality.
From stdpp Require Import gmap strings.
Import ListNotations.
Open Scope R_scope.

(** * Part I: the embedding *)

(** ** Comparisons of reals as booleans *)

Definition Rltb (x y : R) : bool := if Rlt_dec x y then true else false.
Definition Rleb (x y : R) : bool := if Rle_dec x y then true else false.
Definition Reqb (x y : R) : bool := if Req_dec_T x y then true else false.

(** ** Binary64 rounding

    Python floats and NumPy's [float64] are IEEE 754 binary64 numbers: 53
    significant bits, every operation rounded to nearest, ties to even.
    The exponent range is not bounded here: no overflow and no underflow. *)

(** The integer nearest to [x], the even one of two that are equally
    near. *)
Definition Znearest_even (x : R) : Z :=
  let f := Zfloor x in
  if Rltb (x - IZR f) (1 / 2) then f
  else if Rltb (1 / 2) (x - IZR f) then (f + 1)%Z
  else if Z.even f then f else (f + 1)%Z.

(** The exponent of the last of the 53 bits of [x <> 0]:
    [2 ^ (e + 52) <= |x| < 2 ^ (e + 53)]. *)
Definition exponent (x : R) : Z := (Zfloor (ln (Rabs x) / ln 2) - 52)%Z.

(** [x] rounded to binary64: to the nearest number with 53 bits, ties to
    even. *)
Definition binary64 (x : R) : R :=
  if Reqb x 0 then 0
  else IZR (Znearest_even (x * powerRZ 2 (- exponent x)))
       * powerRZ 2 (exponent x).

(** ** Values that may be NaN or infinite *)

Inductive float : Type :=
| Fin (r : R)
| NaN
| Inf (negative : bool).

(** ** Arrays with a trailing axis *)

Record ndarray (B A : Type) : Type := mk_ndarray {
  axis_len : nat;
  row : B -> list A;
}.
Arguments mk_ndarray {B A} _ _.
Arguments axis_len {B A} _.
Arguments row {B A} _ _.

(** The rows really have the length the shape announces. *)
Definition well_shaped {B A : Type} (x : ndarray B A) : Prop :=
  forall b : B, length (row x b) = axis_len x.

(** ** The NumPy operations the program uses *)

Module np.

(** [np.where(c, a, b)] at one element.  [np.where] is a function: its
    arguments [a] and [b] are arrays that exist before it selects, and
    only the selected element reaches the result. *)
Definition where_ {A : Type} (c : bool) (a b : A) : A := if c then a else b.

(** A division of float arrays does not raise: it warns. *)
Inductive RuntimeWarning : Type :=
| invalid_value
| divide_by_zero.

(** [a / b] at one element, with the warning it raises: [0 / 0] is NaN
    (invalid value), any other division by 0 an infinity (divide by zero),
    its sign here that of [a]. *)
Definition divide (a b : R) : float * list RuntimeWarning :=
  if Reqb b 0
  then if Reqb a 0 then (NaN, [invalid_value])
       else (Inf (Rltb a 0), [divide_by_zero])
  else (Fin (a / b), []).

(** [np.abs], [np.maximum], [np.sign] at one element. *)
Definition abs (x : R) : R := Rabs x.
Definition maximum (x y : R) : R := Rmax x y.
Definition sign (x : R) : R :=
  if Rltb 0 x then 1 else if Rltb x 0 then -1 else 0.

(** [np.arange(0, stop, step)].  NumPy takes the number of points from
    the quotient as the floats give it, [ceil (stop / step)] with the
    division rounded to binary64 (no point when that is not positive).
    The points [0, step, 2*step, ...] themselves are kept as the exact
    products, where NumPy rounds each one.  A zero step raises. *)
Definition arange (stop step : R) : option (list R) :=
  if Reqb step 0 then None
  else Some (map (fun i : nat => INR i * step)
                 (seq 0 (Z.to_nat (Zceil (binary64 (stop / step)))))).

(** [np.diff] along the last axis: [out[i] = a[i+1] - a[i]]. *)
Fixpoint diff (a : list R) : list R :=
  match a with
  | x :: (y :: _) as a' => (y - x) :: diff a'
  | _ => []
  end.

(** [np.sum(mask, axis=-1)] of a boolean row: how many are true. *)
Definition count (mask : list bool) : nat :=
  length (List.filter (fun c : bool => c) mask).

(** [np.sum] of a row of numbers. *)
Definition sum (a : list R) : R := fold_right Rplus 0 a.

(** [total / count] as NumPy's reductions compute it: the sum over no
    element is 0 and 0/0 is NaN (with a warning, not an exception). *)
Definition over_count (total : R) (count : nat) : float :=
  match count with
  | O => NaN
  | S _ => Fin (total / INR count)
  end.

(** [np.mean(a, axis=-1)] on one row. *)
Definition mean (a : list R) : float := over_count (sum a) (length a).

(** [np.var(a, axis=-1)] on one row: the mean of the squared deviations
    from the mean (over no element the deviations are no element too). *)
Definition var (a : list R) : float :=
  let arrmean := sum a / INR (length a) in
  over_count (sum (map (fun v => (v - arrmean) ^ 2) a)) (length a).

(** [np.sqrt] at one element that may be NaN or infinite. *)
Definition sqrt (x : float) : float :=
  match x with
  | Fin r => if Rltb r 0 then NaN else Fin (R_sqrt.sqrt r)
  | NaN => NaN
  | Inf negative => if negative then NaN else Inf false
  end.

(** [np.std(a, axis=-1)] on one row. *)
Definition std (a : list R) : float := sqrt (var a).

(** [np.expand_dims(x, axis=0)]: a new leading axis of length 1. *)
Definition expand_dims {B A : Type} (x : ndarray B A) : ndarray (unit * B) A :=
  mk_ndarray (axis_len x) (fun j => row x (snd j)).

(** [x[..., i]]; an index outside the trailing axis raises. *)
Definition item {B : Type} (x : ndarray B R) (i : nat) : option (B -> R) :=
  if decide (i < axis_len x)%nat then Some (fun b => nth i (row x b) 0)
  else None.

(** [x[..., mask]] for a boolean [mask] on the trailing axis. *)
Fixpoint select {A : Type} (mask : list bool) (a : list A) : list A :=
  match mask, a with
  | c :: mask', v :: a' => if c then v :: select mask' a' else select mask' a'
  | _, _ => []
  end.

(** A mask whose length is not that of the axis raises. *)
Definition index_mask {B A : Type} (x : ndarray B A) (mask : list bool)
  : option (ndarray B A) :=
  if decide (axis_len x = length mask)
  then Some (mk_ndarray (count mask) (fun b => select mask (row x b)))
  else None.

(** [np.stack(arrays, axis=-1)] of arrays of one shape; no array at all
    raises. *)
Definition stack {B A : Type} (arrays : list (B -> A)) : option (ndarray B A) :=
  match arrays with
  | [] => None
  | _ => Some (mk_ndarray (length arrays) (fun b => map (fun a => a b) arrays))
  end.

(** [x.squeeze(axis=0)] of an array whose leading axis has length 1. *)
Definition squeeze {B A : Type} (x : ndarray (unit * B) A) : ndarray B A :=
  mk_ndarray (axis_len x) (fun b => row x (tt, b)).

End np.

(** ** The SciPy statistics the program uses

    [scipy.stats.skew] and [scipy.stats.kurtosis] with their default
    arguments (biased, Fisher's definition), on one row.  Over no element
    the moments are NaN.  On data whose variance is zero up to the float
    resolution the releases of the repository's time return 0 for the
    ratio (later ones NaN); no property below looks at that case. *)

Module sp.

(** The [k]-th central moment. *)
Definition moment (k : nat) (a : list R) : float :=
  let mean := np.sum a / INR (length a) in
  np.over_count (np.sum (map (fun v => (v - mean) ^ k) a)) (length a).

(** [np.finfo(float64).resolution]. *)
Definition resolution : R := 1e-15.

Definition skew (a : list R) : float :=
  match np.mean a, moment 2 a, moment 3 a with
  | Fin mean, Fin m2, Fin m3 =>
      let zero := Rleb m2 ((resolution * mean) ^ 2) in
      np.where_ zero (Fin 0) (Fin (m3 / (m2 * R_sqrt.sqrt m2)))
  | _, _, _ => NaN
  end.

Definition kurtosis (a : list R) : float :=
  match np.mean a, moment 2 a, moment 4 a with
  | Fin mean, Fin m2, Fin m4 =>
      let zero := Rleb m2 ((resolution * mean) ^ 2) in
      np.where_ zero (Fin (0 - 3)) (Fin (m4 / m2 ^ 2 - 3))
  | _, _, _ => NaN
  end.

End sp.

(** ** Kinetics

    The rate functions of [voltage_trace], at one array element. *)

Definition efun (x : R) : R :=
  np.where_ (Rltb (np.abs x) 1e-4)
    (1 - x / 2)
    (x / (exp x - 1)).

(** The call of [efun] as Python evaluates it.  Both [1 - x / 2] and
    [x / (exp(x) - 1)] are computed, at every element, before [np.where]
    selects: the result carries the value selected and the warnings of
    the division. *)
Definition efun_where (x : R) : float * list np.RuntimeWarning :=
  let condition := Rltb (np.abs x) 1e-4 in
  let near := Fin (1 - x / 2) in
  let '(far, warnings) := np.divide x (exp x - 1) in
  (np.where_ condition near far, warnings).

Definition alpha_n (x : R) : R := 0.032 * efun (-0.2 * (x - 15)) / 0.2.
Definition beta_n (x : R) : R := 0.5 * exp (- (x - 10) / 40).
Definition tau_n (x : R) : R := 1 / (alpha_n x + beta_n x).
Definition n_inf (x : R) : R := alpha_n x / (alpha_n x + beta_n x).

Definition alpha_m (x : R) : R := 0.32 * efun (-0.25 * (x - 13)) / 0.25.
Definition beta_m (x : R) : R := 0.28 * efun (0.2 * (x - 40)) / 0.2.
Definition tau_m (x : R) : R := 1 / (alpha_m x + beta_m x).
Definition m_inf (x : R) : R := alpha_m x / (alpha_m x + beta_m x).

Definition alpha_h (x : R) : R := 0.128 * exp (- (x - 17) / 18).
Definition beta_h (x : R) : R := 4 / (1 + exp (-0.2 * (x - 40))).
Definition tau_h (x : R) : R := 1 / (alpha_h x + beta_h x).
Definition h_inf (x : R) : R := alpha_h x / (alpha_h x + beta_h x).

(** [tau_p] closes over the parameter [tau_max]. *)
Definition tau_p (tau_max x : R) : R :=
  tau_max / (3.3 * exp (0.05 * (x + 35)) + exp (-0.05 * (x + 35))).
Definition p_inf (x : R) : R := 1 / (1 + exp (-0.1 * (x + 35))).

Definition C : R := 1.
Definition E_Na : R := 53.
Definition E_K : R := -107.

(** ** The time-step loop of [voltage_trace]

    [J] indexes the shape of [V] (the batch shape behind the leading axis
    that [expand_dims] adds).  [randn i] is the array that the [i]-th call
    of [np.random.randn], at the shape of [V], returns: the random stream
    is an input of the model.  [dt ** 0.5] is the real square root, which
    is what Python computes for [dt >= 0]. *)

Section Iterations.

Context {J : Type}.
Variables (T dt pad V_0 I : R).
Variables (g_Na g_K g_M g_leak tau_max V_t sigma E_leak : J -> R).
Variable randn : nat -> J -> R.

(** The variables the loop carries, and the list it appends to. *)
Record State : Type := mk_State {
  V : J -> R;
  V_rel : J -> R;
  n : J -> R;
  m : J -> R;
  h : J -> R;
  p : J -> R;
  voltages : list (J -> R);
}.

(** The state before the first iteration. *)
Definition init : State :=
  let V := fun _ : J => V_0 in
  let V_rel := fun j => V j - V_t j in
  mk_State V V_rel
    (fun j => n_inf (V_rel j))
    (fun j => m_inf (V_rel j))
    (fun j => h_inf (V_rel j))
    (fun j => p_inf (V j))
    [].

(** [tau_V] as the loop body computes it from the current state. *)
Definition tau_V (s : State) : J -> R := fun j =>
  C / (
    g_Na j * m s j ^ 3 * h s j
    + g_K j * n s j ^ 4
    + g_M j * p s j
    + g_leak j
  ).

(** [pad <= t < T - pad] as a number. *)
Definition stimulus (t : R) : R :=
  if Rleb pad t && Rltb t (T - pad) then 1 else 0.

(** [V_inf] as the loop body computes it in iteration [i] at time [t]. *)
Definition V_inf (i : nat) (t : R) (s : State) : J -> R := fun j =>
  tau_V s j * (
    E_Na * g_Na j * m s j ^ 3 * h s j
    + E_K * g_K j * n s j ^ 4
    + E_K * g_M j * p s j
    + E_leak j * g_leak j
    + I * stimulus t
    + sigma j * randn i j / sqrt dt
  ) / C.

(** One iteration of [for i, t in enumerate(timesteps)]. *)
Definition step (s : State) (it : nat * R) : State :=
  let '(i, t) := it in
  let tau_V := tau_V s in
  let V_inf := V_inf i t s in
  let V := fun j => V_inf j + (V s j - V_inf j) * exp (- dt / tau_V j) in
  let V_rel := fun j => V j - V_t j in
  let n := fun j =>
    n_inf (V_rel j) + (n s j - n_inf (V_rel j)) * exp (- dt / tau_n (V_rel j)) in
  let m := fun j =>
    m_inf (V_rel j) + (m s j - m_inf (V_rel j)) * exp (- dt / tau_m (V_rel j)) in
  let h := fun j =>
    h_inf (V_rel j) + (h s j - h_inf (V_rel j)) * exp (- dt / tau_h (V_rel j)) in
  let p := fun j =>
    p_inf (V j) + (p s j - p_inf (V j)) * exp (- dt / tau_p (tau_max j) (V j)) in
  mk_State V V_rel n m h p (voltages s ++ [V]).

(** [enumerate(timesteps)]. *)
Definition enumerate (timesteps : list R) : list (nat * R) :=
  combine (seq 0 (length timesteps)) timesteps.

(** The whole loop. *)
Definition iterations (timesteps : list R) : State :=
  fold_left step (enumerate timesteps) init.

(** The state after the first [k] iterations of the loop. *)
Definition state_after (timesteps : list R) (k : nat) : State :=
  fold_left step (firstn k (enumerate timesteps)) init.

End Iterations.

Arguments V {J} _ _.
Arguments V_rel {J} _ _.
Arguments n {J} _ _.
Arguments m {J} _ _.
Arguments h {J} _ _.
Arguments p {J} _ _.
Arguments voltages {J} _.

(** ** [voltage_trace] *)

Definition voltage_trace {B : Type} (theta : ndarray B R)
    (constants : gmap string R) (randn : nat -> unit * B -> R)
  : option (ndarray B R) :=
  T ← constants !! "duration";
  dt ← constants !! "time_step";
  pad ← constants !! "padding";
  V_0 ← constants !! "initial_voltage";
  I ← constants !! "current";
  let theta := np.expand_dims theta in
  unpacked ← mapM (np.item theta) (seq 0 8);
  match unpacked with
  | [g_Na; g_K; g_M; g_leak; tau_max; V_t; sigma; E_leak] =>
      timesteps ← np.arange T dt;
      let s := iterations T dt pad V_0 I
                 g_Na g_K g_M g_leak tau_max V_t sigma E_leak randn timesteps in
      x ← np.stack (voltages s);
      Some (np.squeeze x)
  | _ => None
  end.

(** ** [summarize] *)

(** The three lines that count the spikes, on one row. *)
Definition spike_count (x : list R) : nat :=
  let spikes := map (fun v => np.maximum v (-10)) x in
  let spikes := np.diff (map np.sign (np.diff spikes)) in
  np.count (map (fun d => Rltb d 0) spikes).

Definition summarize {B : Type} (x : ndarray B R) (constants : gmap string R)
  : option (ndarray B float) :=
  T ← constants !! "duration";
  dt ← constants !! "time_step";
  pad ← constants !! "padding";
  t ← np.arange T dt;
  let spikes := fun b => Fin (INR (spike_count (row x b))) in
  rest ← np.index_mask x (map (fun t => Rleb (pad / 2) t && Rltb t pad) t);
  let rest_mean := fun b => np.mean (row rest b) in
  let rest_std := fun b => np.std (row rest b) in
  x ← np.index_mask x (map (fun t => Rleb pad t && Rltb t (T - pad)) t);
  let x_mean := fun b => np.mean (row x b) in
  let x_var := fun b => np.var (row x b) in
  let x_skew := fun b => sp.skew (row x b) in
  let x_kurtosis := fun b => sp.kurtosis (row x b) in
  np.stack [
    spikes;
    rest_mean; rest_std;
    x_mean; x_var; x_skew; x_kurtosis
  ].

(** ** The class [HH] *)

Module HH.

Record t : Type := mk {
  constants : gmap string R;
  summary : bool;
}.

Definition default : gmap string R :=
  {[ "duration" := 80;
     "time_step" := 0.02;
     "padding" := 10;
     "initial_voltage" := -70;
     "current" := 5e-4 / (PI * 7e-3 ^ 2) ]}.

(** [kwargs.get(k, v)]. *)
Definition get (kwargs : gmap string R) (k : string) (v : R) : R :=
  match kwargs !! k with
  | Some w => w
  | None => v
  end.

(** The constructor, called with keyword arguments; [summary] is [None]
    when the caller does not pass it. *)
Definition __init__ (summary : option bool) (kwargs : gmap string R) : t :=
  mk (map_imap (fun k v => Some (get kwargs k v)) default)
     (match summary with Some s => s | None => true end).

(** What a call returns: the trace or its summary. *)
Inductive output (B : Type) : Type :=
| Trace (x : ndarray B R)
| Summary (x : ndarray B float).
Arguments Trace {B} _.
Arguments Summary {B} _.

Definition __call__ {B : Type} (self : t) (theta : ndarray B R)
    (randn : nat -> unit * B -> R) : option (output B) :=
  x ← voltage_trace theta (constants self) randn;
  if summary self
  then x ← summarize x (constants self); Some (Summary x)
  else Some (Trace x).

End HH.

(** ** Notions of the specification *)

(** The exponential update: the value at time [dt] of the solution of
    [dg/dt = (target - g) / tau] that starts at [current]. *)
Definition exp_update (dt target current tau : R) : R :=
  target + (current - target) * exp (- dt / tau).

(** All four gating variables lie strictly between 0 and 1, at every
    batch element. *)
Definition gates_in_unit {J : Type} (s : @State J) : Prop :=
  forall j : J,
    0 < n s j < 1 /\ 0 < m s j < 1 /\ 0 < h s j < 1 /\ 0 < p s j < 1.

(** The number of points of the grid [np.arange(0, duration, dt)]. *)
Definition grid_length (duration dt : R) : nat :=
  Z.to_nat (Zceil (binary64 (duration / dt))).

(** The grid itself. *)
Definition grid (duration dt : R) : list R :=
  map (fun i : nat => INR i * dt) (seq 0 (grid_length duration dt)).

(** The [i]-th parameter of [theta], at the shape of [V]. *)
Definition parameter {B : Type} (theta : ndarray B R) (i : nat)
  : unit * B -> R :=
  fun j => nth i (row theta (snd j)) 0.

(** The trace clipped from below at -10. *)
Definition clip (x : list R) : list R := map (fun v => Rmax v (-10)) x.

(** The sign of the first difference of [y] at index [i]. *)
Definition sign_of_difference (y : list R) (i : nat) : R :=
  np.sign (nth (S i) y 0 - nth i y 0).

(** How many indices have a negative second difference of the sign of
    the first difference. *)
Definition negative_second_differences (y : list R) : nat :=
  length (List.filter
            (fun i => Rltb (sign_of_difference y (S i) - sign_of_difference y i) 0)
            (seq 0 (length y - 2))).

(** Local maxima counted by hand: the samples strictly above both of
    their neighbours. *)
Definition local_maxima (y : list R) : nat :=
  length (List.filter
            (fun i => Rltb (nth i y 0) (nth (S i) y 0)
                      && Rltb (nth (S (S i)) y 0) (nth (S i) y 0))
            (seq 0 (length y - 2))).

(** Local maxima counted by hand when a flat top counts once: a rise,
    then any number of equal samples, then a fall. *)
Fixpoint flat_top_maxima (rising : bool) (y : list R) : nat :=
  match y with
  | a :: (b :: _) as y' =>
      if Rltb a b then flat_top_maxima true y'
      else if Rltb b a
           then ((if rising then 1 else 0) + flat_top_maxima false y')%nat
           else flat_top_maxima rising y'
  | _ => O
  end.

(** Every flat step of [y] lies in a valley: it does not follow a rise
    and is not followed by a fall. *)
Definition flat_only_in_valleys (y : list R) : Prop :=
  forall i : nat, (S (S i) < length y)%nat ->
    (nth i y 0 < nth (S i) y 0 -> nth (S i) y 0 <> nth (S (S i)) y 0) /\
    (nth (S (S i)) y 0 < nth (S i) y 0 -> nth i y 0 <> nth (S i) y 0).

(** The samples of a row, in order, whose grid time [i * dt] lies in the
    half-open window from [lo] to [hi]. *)
Definition samples_in_window (lo hi dt : R) (a : list R) : list R :=
  map snd
    (List.filter (fun it : nat * R => Rleb lo (INR (fst it) * dt)
                                      && Rltb (INR (fst it) * dt) hi)
                 (combine (seq 0 (length a)) a)).

(** The five names of the constants. *)
Definition constant_names : gset string :=
  {[ "duration"; "time_step"; "padding"; "initial_voltage"; "current" ]}.

(** ** Examples *)

(** The parameter vector in the middle of the bounds, and the same
    without noise. *)
Definition midpoint : ndarray unit R :=
  mk_ndarray 8 (fun _ => [40.25; 7.5; 0.3; 0.3; 1525; -65; 0.075; -67.5]).

Definition noiseless : ndarray unit R :=
  mk_ndarray 8 (fun _ => [40.25; 7.5; 0.3; 0.3; 1525; -65; 0; -67.5]).

(** Constants of a run of 8 steps, and constants whose windows lie beyond
    the end of the run. *)
Definition short_run : gmap string R :=
  {[ "duration" := 8;
     "time_step" := 1;
     "padding" := 2;
     "initial_voltage" := -70;
     "current" := 0 ]}.

Definition no_window : gmap string R :=
  {[ "duration" := 2; "time_step" := 1; "padding" := 10 ]}.

(** Constants with the steps that Python reads from the literals [0.7]
    and [0.3]: the doubles nearest to them. *)
Definition coarse_run : gmap string R :=
  {[ "duration" := 21;
     "time_step" := binary64 0.7;
     "padding" := 2;
     "initial_voltage" := -70;
     "current" := 0 ]}.

Definition brief_run : gmap string R :=
  {[ "duration" := 3;
     "time_step" := binary64 0.3;
     "padding" := 1;
     "initial_voltage" := -70;
     "current" := 0 ]}.

(** Traces: one spike over 8 samples, two samples at rest, one sample,
    and a spike with a flat top. *)
Definition one_spike : ndarray unit R :=
  mk_ndarray 8 (fun _ => [-70; -70; -70; 20; -70; -70; -70; -70]).

Definition at_rest : ndarray unit R := mk_ndarray 2 (fun _ => [-70; -70]).

Definition one_sample : ndarray unit R := mk_ndarray 1 (fun _ => [-70]).

Definition flat_top : list R := [0; 1; 1; 1; 0].

(** The loop of [voltage_trace] on [midpoint] and [short_run] with a
    random stream that only draws 0, after [k] iterations. *)
Definition short_run_state (k : nat) : @State (unit * unit) :=
  state_after 8 1 2 (-70) 0
    (parameter midpoint 0) (parameter midpoint 1) (parameter midpoint 2)
    (parameter midpoint 3) (parameter midpoint 4) (parameter midpoint 5)
    (parameter midpoint 6) (parameter midpoint 7)
    (fun _ _ => 0) (grid 8 1) k.

(** ** The prior [hh_prior]

    [bounds] is the table of the source, one row [lower, upper] per
    parameter, in the order in which [voltage_trace] unpacks [theta]. *)

Definition bounds : list (R * R) :=
  [ (0.5, 80);
    (1e-4, 15);
    (1e-4, 0.6);
    (1e-4, 0.6);
    (50, 3000);
    (-90, -40);
    (1e-4, 0.15);
    (-100, -35) ].

Definition lower : list R := map fst bounds.
Definition upper : list R := map snd bounds.

Module torch.

(** [t[mask]] for a vector [t] and a boolean [mask]; a mask of another
    length raises. *)
Definition index_mask (t : list R) (mask : list bool) : option (list R) :=
  if decide (length mask = length t) then Some (np.select mask t) else None.

End torch.

(** [JointUniform] is a class of [lampe.priors], which is not part of the
    source at hand; a call [JointUniform(low, high)] is kept as the two
    vectors that the constructor is handed. *)
Record JointUniform : Type := mk_JointUniform {
  low : list R;
  high : list R;
}.

(** [hh_prior(mask)]; [None] is the default, which indexes with [...] and
    so keeps every parameter. *)
Definition hh_prior (mask : option (list bool)) : option JointUniform :=
  match mask with
  | None => Some (mk_JointUniform lower upper)
  | Some mask =>
      l ← torch.index_mask lower mask;
      u ← torch.index_mask upper mask;
      Some (mk_JointUniform l u)
  end.

(** A parameter vector lies in the box of the prior. *)
Definition in_bounds (theta : list R) : Prop :=
  forall i : nat, (i < 8)%nat ->
    nth i lower 0 <= nth i theta 0 <= nth i upper 0.

(** A trace that stays at one level. *)
Definition flat_trace (level : R) (length : nat) : ndarray unit R :=
  mk_ndarray length (fun _ => repeat level length).

(** A batch of two parameter vectors, [midpoint] and [noiseless]. *)
Definition two_vectors : ndarray bool R :=
  mk_ndarray 8
    (fun b : bool => if b then row midpoint tt else row noiseless tt).

(** * Part II: properties *)

(** ** Comparisons *)

Lemma Rltb_true x y : Rltb x y = true <-> x < y.
Proof. unfold Rltb. destruct (Rlt_dec x y); split; intros; try easy. Qed.

Lemma Rltb_false x y : Rltb x y = false <-> ~ x < y.
Proof. unfold Rltb. destruct (Rlt_dec x y); split; intros; try easy. Qed.

Lemma Rleb_true x y : Rleb x y = true <-> x <= y.
Proof. unfold Rleb. destruct (Rle_dec x y); split; intros; try easy. Qed.

Lemma Rleb_false x y : Rleb x y = false <-> ~ x <= y.
Proof. unfold Rleb. destruct (Rle_dec x y); split; intros; try easy. Qed.

Lemma Reqb_true x y : Reqb x y = true <-> x = y.
Proof. unfold Reqb. destruct (Req_dec_T x y); split; intros; try easy. Qed.

Lemma Reqb_false x y : Reqb x y = false <-> x <> y.
Proof. unfold Reqb. destruct (Req_dec_T x y); split; intros; try easy. Qed.

(** Settle the comparisons of the goal by linear arithmetic. *)
Ltac Rdecide :=
  repeat match goal with
  | |- context [Rltb ?x ?y] =>
      first [ replace (Rltb x y) with true by (symmetry; apply Rltb_true; lra)
            | replace (Rltb x y) with false by (symmetry; apply Rltb_false; lra) ]
  | |- context [Rleb ?x ?y] =>
      first [ replace (Rleb x y) with true by (symmetry; apply Rleb_true; lra)
            | replace (Rleb x y) with false by (symmetry; apply Rleb_false; lra) ]
  | |- context [Reqb ?x ?y] =>
      first [ replace (Reqb x y) with true by (symmetry; apply Reqb_true; lra)
            | replace (Reqb x y) with false by (symmetry; apply Reqb_false; lra) ]
  end.

(** ** Binary64 rounding *)

Lemma ln_2_pos : 0 < ln 2.
Proof. rewrite <- ln_1. apply ln_increasing; lra. Qed.

Lemma ln_powerRZ_2 (e : Z) : ln (powerRZ 2 e) = IZR e * ln 2.
Proof. rewrite powerRZ_Rpower by lra. apply ln_Rpower. Qed.

Lemma powerRZ_2_pos (e : Z) : 0 < powerRZ 2 e.
Proof. apply powerRZ_lt. lra. Qed.

Lemma powerRZ_2_cancel (e : Z) : powerRZ 2 (- e) * powerRZ 2 e = 1.
Proof.
  rewrite <- powerRZ_add by lra. replace (- e + e)%Z with 0%Z by lia.
  reflexivity.
Qed.

Lemma powerRZ_2_lt (a b : Z) : (a < b)%Z -> powerRZ 2 a < powerRZ 2 b.
Proof.
  intros H. rewrite !powerRZ_Rpower by lra. apply Rpower_lt; [lra |].
  now apply IZR_lt.
Qed.

Lemma powerRZ_2_le (a b : Z) : (a <= b)%Z -> powerRZ 2 a <= powerRZ 2 b.
Proof.
  intros H. destruct (Z.eq_dec a b) as [-> | Hne]; [lra |].
  left. apply powerRZ_2_lt. lia.
Qed.

Lemma powerRZ_2_lt_inv (a b : Z) : powerRZ 2 a < powerRZ 2 b -> (a < b)%Z.
Proof.
  intros H. destruct (Z_lt_le_dec a b) as [Hlt | Hle]; [exact Hlt |].
  pose proof (powerRZ_2_le b a Hle). lra.
Qed.

(** A power of 2 with a natural exponent is an integer. *)
Lemma powerRZ_2_IZR (e : Z) : (0 <= e)%Z -> powerRZ 2 e = IZR (2 ^ e).
Proof.
  intros H. destruct e as [| q | q]; [reflexivity | | lia].
  unfold powerRZ. rewrite pow_IZR. now rewrite positive_nat_Z.
Qed.

Lemma exponent_bounds (x : R) :
  x <> 0 ->
  powerRZ 2 (exponent x + 52) <= Rabs x < powerRZ 2 (exponent x + 53).
Proof.
  intros Hx. unfold exponent.
  assert (Hpos : 0 < Rabs x) by now apply Rabs_pos_lt.
  pose proof ln_2_pos as H2.
  set (l := ln (Rabs x) / ln 2). pose proof (Zfloor_bound l) as [Hlo Hhi].
  replace (Zfloor l - 52 + 52)%Z with (Zfloor l) by lia.
  replace (Zfloor l - 52 + 53)%Z with (Zfloor l + 1)%Z by lia.
  assert (Hl : ln (Rabs x) = l * ln 2) by (unfold l; field; lra).
  rewrite <- (exp_ln (Rabs x)) by exact Hpos.
  rewrite <- (exp_ln (powerRZ 2 (Zfloor l))) by apply powerRZ_2_pos.
  rewrite <- (exp_ln (powerRZ 2 (Zfloor l + 1))) by apply powerRZ_2_pos.
  rewrite !ln_powerRZ_2, Hl, plus_IZR. split.
  - destruct Hlo as [Hlo | Hlo].
    + left. apply exp_increasing. nra.
    + right. now rewrite Hlo.
  - apply exp_increasing. nra.
Qed.

Lemma exponent_eq (x : R) (e : Z) :
  powerRZ 2 (e + 52) <= Rabs x < powerRZ 2 (e + 53) -> exponent x = e.
Proof.
  intros [Hlo Hhi]. unfold exponent.
  pose proof ln_2_pos as H2. pose proof (powerRZ_2_pos (e + 52)) as Hp.
  assert (Hpos : 0 < Rabs x) by lra.
  enough (Zfloor (ln (Rabs x) / ln 2) = (e + 52)%Z) by lia.
  apply Zfloor_eq. split.
  - apply Rmult_le_reg_r with (ln 2); [lra |].
    replace (ln (Rabs x) / ln 2 * ln 2) with (ln (Rabs x)) by (field; lra).
    rewrite <- ln_powerRZ_2.
    destruct Hlo as [Hlo | Hlo]; [left; now apply ln_increasing |].
    right. now rewrite Hlo.
  - apply Rmult_lt_reg_r with (ln 2); [lra |].
    replace (ln (Rabs x) / ln 2 * ln 2) with (ln (Rabs x)) by (field; lra).
    replace ((IZR (e + 52) + 1) * ln 2) with (IZR (e + 53) * ln 2)
      by (rewrite !plus_IZR; lra).
    rewrite <- ln_powerRZ_2. now apply ln_increasing.
Qed.

Lemma Znearest_even_bounds (x : R) :
  (Zfloor x <= Znearest_even x <= Zfloor x + 1)%Z.
Proof.
  unfold Znearest_even.
  destruct (Rltb _ _); [lia |]. destruct (Rltb _ _); [lia |].
  destruct (Z.even _); lia.
Qed.

Lemma Znearest_even_IZR (k : Z) : Znearest_even (IZR k) = k.
Proof.
  unfold Znearest_even. rewrite ZfloorZ.
  replace (Rltb (IZR k - IZR k) (1 / 2)) with true; [reflexivity |].
  symmetry. apply Rltb_true. lra.
Qed.

(** Away from a tie the nearest integer is the one within a half. *)
Lemma Znearest_even_eq (x : R) (k : Z) :
  IZR k - 1 / 2 < x < IZR k + 1 / 2 -> Znearest_even x = k.
Proof.
  intros [Hlo Hhi]. unfold Znearest_even.
  destruct (Rlt_dec x (IZR k)) as [Hlt | Hge].
  - assert (Hf : Zfloor x = (k - 1)%Z).
    { apply Zfloor_eq. rewrite minus_IZR. lra. }
    rewrite Hf, minus_IZR.
    replace (Rltb (x - (IZR k - 1)) (1 / 2)) with false
      by (symmetry; apply Rltb_false; lra).
    replace (Rltb (1 / 2) (x - (IZR k - 1))) with true
      by (symmetry; apply Rltb_true; lra).
    lia.
  - assert (Hf : Zfloor x = k) by (apply Zfloor_eq; lra).
    rewrite Hf.
    replace (Rltb (x - IZR k) (1 / 2)) with true
      by (symmetry; apply Rltb_true; lra).
    reflexivity.
Qed.

(** Between two integers the nearest integer stays between them. *)
Lemma Znearest_even_between (x : R) (a b : Z) :
  IZR a <= x <= IZR b -> (a <= Znearest_even x <= b)%Z.
Proof.
  intros [Ha Hb]. pose proof (Znearest_even_bounds x) as [Hlo Hhi].
  pose proof (Zfloor_lub a x Ha) as Hfa. split; [lia |].
  destruct Hb as [Hb | ->]; [| rewrite Znearest_even_IZR; lia].
  pose proof (Zfloor_bound x) as [Hf _].
  assert (Zfloor x < b)%Z; [| lia].
  apply lt_IZR. lra.
Qed.

Lemma binary64_unfold (x : R) (e : Z) :
  powerRZ 2 (e + 52) <= Rabs x < powerRZ 2 (e + 53) ->
  binary64 x = IZR (Znearest_even (x * powerRZ 2 (- e))) * powerRZ 2 e.
Proof.
  intros H. unfold binary64. rewrite (exponent_eq x e H).
  replace (Reqb x 0) with false; [reflexivity |].
  symmetry. apply Reqb_false. intros ->. rewrite Rabs_R0 in H.
  pose proof (powerRZ_2_pos (e + 52)). lra.
Qed.

Lemma binary64_0 : binary64 0 = 0.
Proof.
  unfold binary64. replace (Reqb 0 0) with true; [reflexivity |].
  symmetry. now apply Reqb_true.
Qed.

(** Rounding keeps the sign. *)
Lemma binary64_pos (x : R) : 0 < x -> 0 < binary64 x.
Proof.
  intros Hx. pose proof (exponent_bounds x ltac:(lra)) as Hb.
  rewrite (binary64_unfold x _ Hb). rewrite Rabs_pos_eq in Hb by lra.
  set (e := exponent x) in *. pose proof (powerRZ_2_pos e) as He.
  apply Rmult_lt_0_compat; [| exact He].
  apply IZR_lt. pose proof (Znearest_even_bounds (x * powerRZ 2 (- e))) as [Hn _].
  assert (Hf : (1 <= Zfloor (x * powerRZ 2 (- e)))%Z); [| lia].
  apply Zfloor_lub.
  assert (H52 : powerRZ 2 52 <= x * powerRZ 2 (- e)).
  { replace (powerRZ 2 52) with (powerRZ 2 (e + 52) * powerRZ 2 (- e)).
    - apply Rmult_le_compat_r; [left; apply powerRZ_2_pos | tauto].
    - rewrite <- powerRZ_add by lra. f_equal. lia. }
  pose proof (powerRZ_2_le 0 52 ltac:(lia)) as H0. simpl (powerRZ 2 0) in H0.
  lra.
Qed.

Lemma binary64_nonpos (x : R) : x <= 0 -> binary64 x <= 0.
Proof.
  intros Hx. destruct (Req_dec_T x 0) as [-> | Hne];
    [rewrite binary64_0; lra |].
  pose proof (exponent_bounds x Hne) as Hb.
  rewrite (binary64_unfold x _ Hb).
  set (e := exponent x) in *. pose proof (powerRZ_2_pos e) as He.
  pose proof (powerRZ_2_pos (- e)) as He'.
  assert (Hn : (Znearest_even (x * powerRZ 2 (- e)) <= 0)%Z).
  { apply (Znearest_even_between _ (Zfloor (x * powerRZ 2 (- e))) 0).
    split; [apply Zfloor_bound | nra]. }
  apply IZR_le in Hn. nra.
Qed.

(** Every quotient below [2 ^ 53] is rounded to a number between the two
    integers around it; an integer is not rounded at all. *)
Lemma binary64_between (x : R) (a b : Z) :
  0 < x < powerRZ 2 53 -> IZR a <= x <= IZR b ->
  IZR a <= binary64 x <= IZR b.
Proof.
  intros [Hpos Hlt] [Ha Hb]. pose proof (exponent_bounds x ltac:(lra)) as Hx.
  rewrite (binary64_unfold x _ Hx). rewrite Rabs_pos_eq in Hx by lra.
  set (e := exponent x) in *.
  assert (He : (e <= 0)%Z).
  { assert (e + 52 < 53)%Z; [| lia]. apply powerRZ_2_lt_inv. lra. }
  pose proof (powerRZ_2_pos e) as Hpe. pose proof (powerRZ_2_pos (- e)) as Hpe'.
  pose proof (powerRZ_2_cancel e) as Hc.
  rewrite (powerRZ_2_IZR (- e)) in * by lia.
  set (s := (2 ^ (- e))%Z) in *.
  destruct (Znearest_even_between (x * IZR s) (a * s) (b * s)) as [Hlo Hhi].
  { rewrite !mult_IZR. split; apply Rmult_le_compat_r; lra. }
  apply IZR_le in Hlo, Hhi. rewrite mult_IZR in Hlo, Hhi.
  split.
  - replace (IZR a) with (IZR a * IZR s * powerRZ 2 e)
      by (rewrite Rmult_assoc, Hc; ring).
    apply Rmult_le_compat_r; lra.
  - replace (IZR b) with (IZR b * IZR s * powerRZ 2 e)
      by (rewrite Rmult_assoc, Hc; ring).
    apply Rmult_le_compat_r; lra.
Qed.

Lemma binary64_IZR (k : Z) : (0 < k < 2 ^ 53)%Z -> binary64 (IZR k) = IZR k.
Proof.
  intros [Hlo Hhi].
  assert (H : IZR k <= binary64 (IZR k) <= IZR k); [| lra].
  apply binary64_between; [| lra]. split; [now apply IZR_lt |].
  rewrite (powerRZ_2_IZR 53) by lia. now apply IZR_lt.
Qed.

(** The rounding of [x] in the binade of exponent [e], away from a tie. *)
Lemma binary64_eq (x : R) (e k : Z) :
  powerRZ 2 (e + 52) <= x < powerRZ 2 (e + 53) ->
  IZR k - 1 / 2 < x * powerRZ 2 (- e) < IZR k + 1 / 2 ->
  binary64 x = IZR k * powerRZ 2 e.
Proof.
  intros Hb Hk. pose proof (powerRZ_2_pos (e + 52)).
  rewrite (binary64_unfold x e) by (rewrite Rabs_pos_eq; lra).
  now rewrite (Znearest_even_eq _ k Hk).
Qed.

(** *** Rounding at concrete numbers *)

Lemma powerRZ_2_neg (e : Z) : (0 <= e)%Z -> powerRZ 2 (- e) = / IZR (2 ^ e).
Proof. intros H. now rewrite powerRZ_neg', powerRZ_2_IZR. Qed.

(** Turn the powers of 2 of the goal into numerals. *)
Ltac binade :=
  repeat match goal with
  | |- context [powerRZ 2 ?z] =>
      let v := eval vm_compute in z in
      progress (change (powerRZ 2 z) with (powerRZ 2 v))
  | |- context [powerRZ 2 (Z.neg ?q)] =>
      change (Z.neg q) with (- Z.pos q)%Z;
      rewrite (powerRZ_2_neg (Z.pos q)) by lia
  | |- context [powerRZ 2 (Z.pos ?q)] =>
      rewrite (powerRZ_2_IZR (Z.pos q)) by lia
  | |- context [powerRZ 2 0] => change (powerRZ 2 0) with 1
  | |- context [(2 ^ Z.pos ?q)%Z] =>
      let v := eval vm_compute in (2 ^ Z.pos q)%Z in
      change (2 ^ Z.pos q)%Z with v
  end.

(** Rounding of a positive number, given its binade and its nearest
    53-bit integer. *)
Ltac round_to e k :=
  rewrite (binary64_eq _ e k);
  [ | binade; lra | binade; lra ];
  binade.

Lemma binary64_0_7 : binary64 0.7 = 6305039478318694 / 9007199254740992.
Proof. round_to (-53)%Z 6305039478318694%Z. lra. Qed.

Lemma binary64_0_3 : binary64 0.3 = 5404319552844595 / 18014398509481984.
Proof. round_to (-54)%Z 5404319552844595%Z. lra. Qed.

Lemma binary64_0_02 : binary64 0.02 = 5764607523034235 / 288230376151711744.
Proof. round_to (-58)%Z 5764607523034235%Z. lra. Qed.

Lemma quotient_21_0_7 :
  binary64 (21 / binary64 0.7) = 8444249301319681 / 281474976710656.
Proof.
  rewrite binary64_0_7. round_to (-48)%Z 8444249301319681%Z. lra.
Qed.

Lemma quotient_3_0_3 : binary64 (3 / binary64 0.3) = 10.
Proof.
  rewrite binary64_0_3. round_to (-49)%Z 5629499534213120%Z. lra.
Qed.

Lemma quotient_1_0_3 :
  binary64 (1 / 0.3) = 7505999378950827 / 2251799813685248.
Proof. round_to (-51)%Z 7505999378950827%Z. lra. Qed.

Lemma product_30_0_7 : binary64 (30 * binary64 0.7) = 21.
Proof.
  rewrite binary64_0_7. round_to (-48)%Z 5910974510923776%Z. lra.
Qed.

Lemma quotient_80_0_02 : binary64 (80 / binary64 0.02) = 4000.
Proof.
  rewrite binary64_0_02. round_to (-41)%Z 8796093022208000%Z. lra.
Qed.

(** ** [efun] *)

Lemma exp_minus_1_neq_0 x : x <> 0 -> exp x - 1 <> 0.
Proof.
  intros Hx. pose proof (exp_ineq1 x Hx). destruct (Rlt_dec x 0); [| lra].
  pose proof (exp_increasing x 0 ltac:(lra)) as H0. rewrite exp_0 in H0. lra.
Qed.

Lemma efun_near x : Rabs x < 1e-4 -> efun x = 1 - x / 2.
Proof.
  intros H. unfold efun, np.where_, np.abs.
  apply Rltb_true in H. now rewrite H.
Qed.

Lemma efun_far x : ~ Rabs x < 1e-4 -> efun x = x / (exp x - 1).
Proof.
  intros H. unfold efun, np.where_, np.abs.
  apply Rltb_false in H. now rewrite H.
Qed.

Lemma far_nonzero x : ~ Rabs x < 1e-4 -> x <> 0.
Proof. intros H ->. apply H. rewrite Rabs_R0. lra. Qed.

Lemma efun_pos x : 0 < efun x.
Proof.
  destruct (Rlt_dec (Rabs x) 1e-4) as [H | H].
  - rewrite efun_near by assumption. apply Rabs_def2 in H. lra.
  - rewrite efun_far by assumption. pose proof (far_nonzero x H) as Hx.
    destruct (Rlt_dec x 0) as [Hneg | Hpos].
    + pose proof (exp_increasing x 0 Hneg) as H0. rewrite exp_0 in H0.
      replace (x / (exp x - 1)) with ((- x) / (1 - exp x)) by (field; lra).
      apply Rdiv_lt_0_compat; lra.
    + pose proof (exp_increasing 0 x ltac:(lra)) as H0. rewrite exp_0 in H0.
      apply Rdiv_lt_0_compat; lra.
Qed.

Lemma divide_nonzero (a b : R) : b <> 0 -> np.divide a b = (Fin (a / b), []).
Proof.
  intros H. unfold np.divide. apply Reqb_false in H. now rewrite H.
Qed.

Lemma divide_zero_by_zero : np.divide 0 0 = (NaN, [np.invalid_value]).
Proof.
  unfold np.divide.
  now replace (Reqb 0 0) with true by (symmetry; now apply Reqb_true).
Qed.

Lemma efun_where_nonzero x : x <> 0 -> efun_where x = (Fin (efun x), []).
Proof.
  intros Hx. unfold efun_where.
  rewrite divide_nonzero by now apply exp_minus_1_neq_0.
  unfold efun, np.where_. now destruct (Rltb (np.abs x) 1e-4).
Qed.

Lemma efun_where_zero : efun_where 0 = (Fin 1, [np.invalid_value]).
Proof.
  unfold efun_where. rewrite exp_0.
  replace (1 - 1) with 0 by lra. rewrite divide_zero_by_zero.
  unfold np.where_, np.abs. rewrite Rabs_R0.
  replace (Rltb 0 1e-4) with true by (symmetry; apply Rltb_true; lra).
  do 2 f_equal. lra.
Qed.

(** C4, amended.  [efun] returns a number at every real number and, on a
    batch [a], chooses its branch at each element [a j] on its own:
    either [|a j| < 1e-4] and the value is [1 - a j / 2], or
    [1e-4 <= |a j|], the divisor [exp (a j) - 1] is not zero and the value
    is [a j / (exp (a j) - 1)]; at 0 the value is 1.  The quotient is
    formed at every element, also where it is not selected: away from 0
    it is a number and nothing is warned, at 0 it is [0 / 0], NaN with a
    warning, which [np.where] discards. *)
Theorem efun_total_singularity_free :
  forall (J : Type) (a : J -> R) (j : J),
    fst (efun_where (a j)) = Fin (efun (a j)) /\
    ((Rabs (a j) < 1e-4 /\ efun (a j) = 1 - a j / 2) \/
     (1e-4 <= Rabs (a j) /\ exp (a j) - 1 <> 0 /\
      efun (a j) = a j / (exp (a j) - 1))) /\
    efun 0 = 1 /\
    (a j <> 0 ->
     np.divide (a j) (exp (a j) - 1) = (Fin (a j / (exp (a j) - 1)), []) /\
     snd (efun_where (a j)) = []) /\
    (a j = 0 ->
     np.divide (a j) (exp (a j) - 1) = (NaN, [np.invalid_value]) /\
     snd (efun_where (a j)) = [np.invalid_value]).
Proof.
  intros J a j.
  assert (H0 : efun 0 = 1).
  { rewrite efun_near by (rewrite Rabs_R0; lra). lra. }
  split; [| split; [| split; [exact H0 | split]]].
  - destruct (Req_dec_T (a j) 0) as [-> | Hne].
    + now rewrite efun_where_zero, H0.
    + now rewrite efun_where_nonzero.
  - destruct (Rlt_dec (Rabs (a j)) 1e-4) as [H | H].
    + left. split; [exact H | apply efun_near, H].
    + right. split; [lra |]. split.
      * apply exp_minus_1_neq_0, far_nonzero, H.
      * apply efun_far, H.
  - intros Hne. split.
    + apply divide_nonzero. now apply exp_minus_1_neq_0.
    + now rewrite efun_where_nonzero.
  - intros ->. split.
    + rewrite exp_0. replace (1 - 1) with 0 by lra.
      exact divide_zero_by_zero.
    + now rewrite efun_where_zero.
Qed.

(** The division is taken on the branch of the small arguments too: at 0,
    where the condition of [np.where] holds and the value is 1, the
    quotient has been computed all the same, it is [0 / 0], and the call
    warns of an invalid value. *)
Lemma efun_total_singularity_free_counterexample :
  Rabs 0 < 1e-4 /\
  np.divide 0 (exp 0 - 1) = (NaN, [np.invalid_value]) /\
  efun_where 0 = (Fin 1, [np.invalid_value]) /\
  ~ (forall x : R,
        Rabs x < 1e-4 -> snd (np.divide x (exp x - 1)) = []).
Proof.
  assert (Hdiv : np.divide 0 (exp 0 - 1) = (NaN, [np.invalid_value])).
  { rewrite exp_0. replace (1 - 1) with 0 by lra. exact divide_zero_by_zero. }
  split; [rewrite Rabs_R0; lra |]. split; [exact Hdiv |].
  split; [exact efun_where_zero |].
  intros H. specialize (H 0 ltac:(rewrite Rabs_R0; lra)).
  rewrite Hdiv in H. discriminate H.
Qed.

(** ** The rate functions are positive, the steady states lie in (0, 1) *)

Lemma ratio_in_unit a b : 0 < a -> 0 < b -> 0 < a / (a + b) < 1.
Proof.
  intros Ha Hb. split.
  - apply Rdiv_lt_0_compat; lra.
  - apply Rmult_lt_reg_r with (a + b); [lra |].
    unfold Rdiv. rewrite Rmult_assoc, Rinv_l by lra. lra.
Qed.

Lemma inv_sum_pos a b : 0 < a -> 0 < b -> 0 < 1 / (a + b).
Proof. intros. apply Rdiv_lt_0_compat; lra. Qed.

Lemma alpha_n_pos x : 0 < alpha_n x.
Proof.
  unfold alpha_n. pose proof (efun_pos (-0.2 * (x - 15))).
  apply Rdiv_lt_0_compat; lra.
Qed.

Lemma beta_n_pos x : 0 < beta_n x.
Proof. unfold beta_n. pose proof (exp_pos (- (x - 10) / 40)). lra. Qed.

Lemma alpha_m_pos x : 0 < alpha_m x.
Proof.
  unfold alpha_m. pose proof (efun_pos (-0.25 * (x - 13))).
  apply Rdiv_lt_0_compat; lra.
Qed.

Lemma beta_m_pos x : 0 < beta_m x.
Proof.
  unfold beta_m. pose proof (efun_pos (0.2 * (x - 40))).
  apply Rdiv_lt_0_compat; lra.
Qed.

Lemma alpha_h_pos x : 0 < alpha_h x.
Proof. unfold alpha_h. pose proof (exp_pos (- (x - 17) / 18)). lra. Qed.

Lemma beta_h_pos x : 0 < beta_h x.
Proof.
  unfold beta_h. pose proof (exp_pos (-0.2 * (x - 40))).
  apply Rdiv_lt_0_compat; lra.
Qed.

Lemma n_inf_unit x : 0 < n_inf x < 1.
Proof. apply ratio_in_unit; [apply alpha_n_pos | apply beta_n_pos]. Qed.

Lemma m_inf_unit x : 0 < m_inf x < 1.
Proof. apply ratio_in_unit; [apply alpha_m_pos | apply beta_m_pos]. Qed.

Lemma h_inf_unit x : 0 < h_inf x < 1.
Proof. apply ratio_in_unit; [apply alpha_h_pos | apply beta_h_pos]. Qed.

Lemma p_inf_unit x : 0 < p_inf x < 1.
Proof.
  unfold p_inf. pose proof (exp_pos (-0.1 * (x + 35))) as He. split.
  - apply Rdiv_lt_0_compat; lra.
  - apply Rmult_lt_reg_r with (1 + exp (-0.1 * (x + 35))); [lra |].
    unfold Rdiv. rewrite Rmult_assoc, Rinv_l by lra. lra.
Qed.

Lemma tau_n_pos x : 0 < tau_n x.
Proof. apply inv_sum_pos; [apply alpha_n_pos | apply beta_n_pos]. Qed.

Lemma tau_m_pos x : 0 < tau_m x.
Proof. apply inv_sum_pos; [apply alpha_m_pos | apply beta_m_pos]. Qed.

Lemma tau_h_pos x : 0 < tau_h x.
Proof. apply inv_sum_pos; [apply alpha_h_pos | apply beta_h_pos]. Qed.

Lemma tau_p_pos tau_max x : 0 < tau_max -> 0 < tau_p tau_max x.
Proof.
  intros H. unfold tau_p.
  pose proof (exp_pos (0.05 * (x + 35))). pose proof (exp_pos (-0.05 * (x + 35))).
  apply Rdiv_lt_0_compat; lra.
Qed.

Create HintDb kinetics.
#[export] Hint Resolve n_inf_unit m_inf_unit h_inf_unit p_inf_unit : kinetics.
#[export] Hint Resolve tau_n_pos tau_m_pos tau_h_pos tau_p_pos : kinetics.

(** The exponential update is a convex combination. *)
Lemma decay_in_unit dt tau : 0 < dt -> 0 < tau -> 0 < exp (- dt / tau) < 1.
Proof.
  intros Hdt Htau. split; [apply exp_pos |].
  rewrite <- exp_0. apply exp_increasing.
  assert (0 < dt / tau) by (apply Rdiv_lt_0_compat; lra).
  unfold Rdiv in *. lra.
Qed.

Lemma exp_update_in_unit dt target current tau :
  0 < dt -> 0 < tau -> 0 < target < 1 -> 0 < current < 1 ->
  0 < exp_update dt target current tau < 1.
Proof.
  intros Hdt Htau Ht Hc. unfold exp_update.
  pose proof (decay_in_unit dt tau Hdt Htau) as He.
  set (e := exp (- dt / tau)) in *. nra.
Qed.

(** ** The time-step loop *)

Section Loop.

Context {J : Type}.
Variables (T dt pad V_0 I : R).
Variables (g_Na g_K g_M g_leak tau_max V_t sigma E_leak : J -> R).
Variable randn : nat -> J -> R.

Local Abbreviation step' :=
  (step T dt pad I g_Na g_K g_M g_leak tau_max V_t sigma E_leak randn).
Local Abbreviation init' := (init V_0 V_t).
Local Abbreviation state_after' :=
  (state_after T dt pad V_0 I g_Na g_K g_M g_leak tau_max V_t sigma E_leak
     randn).
Local Abbreviation iterations' :=
  (iterations T dt pad V_0 I g_Na g_K g_M g_leak tau_max V_t sigma E_leak
     randn).
Local Abbreviation tau_V' := (tau_V g_Na g_K g_M g_leak).
Local Abbreviation V_inf' :=
  (V_inf T dt pad I g_Na g_K g_M g_leak sigma E_leak randn).

Lemma enumerate_length (timesteps : list R) :
  length (enumerate timesteps) = length timesteps.
Proof. unfold enumerate. rewrite length_combine, length_seq. lia. Qed.

Lemma enumerate_nth (timesteps : list R) (k : nat) :
  (k < length timesteps)%nat ->
  nth k (enumerate timesteps) (O, 0) = (k, nth k timesteps 0).
Proof.
  intros Hk. unfold enumerate.
  rewrite combine_nth by apply length_seq.
  now rewrite seq_nth.
Qed.

Lemma firstn_succ {A : Type} (l : list A) (k : nat) (d : A) :
  (k < length l)%nat -> firstn (S k) l = firstn k l ++ [nth k l d].
Proof.
  revert k. induction l as [| a l IH]; intros k Hk; simpl in *; [lia |].
  destruct k as [| k]; [reflexivity |].
  simpl. f_equal. apply IH. lia.
Qed.

(** The loop runs the body once per grid point, in order. *)
Lemma state_after_succ (timesteps : list R) (k : nat) :
  (k < length timesteps)%nat ->
  state_after' timesteps (S k)
  = step' (state_after' timesteps k) (k, nth k timesteps 0).
Proof.
  intros Hk. unfold state_after.
  rewrite (firstn_succ _ _ (O, 0)) by (rewrite enumerate_length; exact Hk).
  rewrite fold_left_app. simpl. now rewrite enumerate_nth.
Qed.

Lemma state_after_all (timesteps : list R) :
  state_after' timesteps (length timesteps) = iterations' timesteps.
Proof.
  unfold state_after, iterations.
  rewrite <- (enumerate_length timesteps). now rewrite firstn_all.
Qed.

(** The loop on the first [k] grid points is the loop stopped after [k]
    iterations. *)
Lemma enumerate_firstn (timesteps : list R) (k : nat) :
  enumerate (firstn k timesteps) = firstn k (enumerate timesteps).
Proof.
  unfold enumerate. generalize O as start. revert k.
  induction timesteps as [| t timesteps IH]; intros k start.
  - now destruct k.
  - destruct k as [| k]; [reflexivity |].
    cbn [firstn length seq combine]. f_equal. apply IH.
Qed.

Lemma state_after_prefix (timesteps : list R) (k : nat) :
  state_after' timesteps k = iterations' (firstn k timesteps).
Proof. unfold state_after, iterations. now rewrite enumerate_firstn. Qed.

(** What one iteration does to the state after [k] iterations. *)
Lemma state_after_update (timesteps : list R) (k : nat) (j : J) :
  (k < length timesteps)%nat ->
  let t := nth k timesteps 0 in
  let s := state_after T dt pad V_0 I g_Na g_K g_M g_leak tau_max V_t sigma
             E_leak randn timesteps k in
  let s' := state_after T dt pad V_0 I g_Na g_K g_M g_leak tau_max V_t sigma
              E_leak randn timesteps (S k) in
  let tau_V_k := tau_V g_Na g_K g_M g_leak s in
  let V_inf_k :=
    V_inf T dt pad I g_Na g_K g_M g_leak sigma E_leak randn k t s in
  s' = step T dt pad I g_Na g_K g_M g_leak tau_max V_t sigma E_leak randn
         s (k, t) /\
  V s' j = exp_update dt (V_inf_k j) (V s j) (tau_V_k j) /\
  V_rel s' j = V s' j - V_t j /\
  n s' j = exp_update dt (n_inf (V_rel s' j)) (n s j) (tau_n (V_rel s' j)) /\
  m s' j = exp_update dt (m_inf (V_rel s' j)) (m s j) (tau_m (V_rel s' j)) /\
  h s' j = exp_update dt (h_inf (V_rel s' j)) (h s j) (tau_h (V_rel s' j)) /\
  p s' j = exp_update dt (p_inf (V s' j)) (p s j) (tau_p (tau_max j) (V s' j)) /\
  voltages s' = voltages s ++ [V s'].
Proof.
  intros Hk t s s' tau_V_k V_inf_k. subst s' tau_V_k V_inf_k.
  rewrite (state_after_succ _ _ Hk). fold t. fold s.
  repeat split; reflexivity.
Qed.

(** *** The gating variables stay in the unit interval *)

Lemma init_gates_in_unit : gates_in_unit init'.
Proof.
  intros j. simpl. repeat split; apply n_inf_unit || apply m_inf_unit
                                 || apply h_inf_unit || apply p_inf_unit.
Qed.

Lemma step_gates_in_unit (s : State) (it : nat * R) :
  0 < dt -> (forall j, 0 < tau_max j) ->
  gates_in_unit s -> gates_in_unit (step' s it).
Proof.
  intros Hdt Htau Hs j. destruct it as [i t].
  destruct (Hs j) as (Hn & Hm & Hh & Hp). simpl.
  split; [| split; [| split]].
  all: apply exp_update_in_unit; auto with kinetics.
Qed.

Lemma fold_gates_in_unit (its : list (nat * R)) (s : State) :
  0 < dt -> (forall j, 0 < tau_max j) ->
  gates_in_unit s -> gates_in_unit (fold_left step' its s).
Proof.
  intros Hdt Htau. revert s.
  induction its as [| it its IH]; intros s Hs; simpl; [exact Hs |].
  apply IH, step_gates_in_unit; assumption.
Qed.

Lemma tau_V_pos (s : State) (j : J) :
  0 < g_Na j -> 0 < g_K j -> 0 < g_M j -> 0 < g_leak j ->
  gates_in_unit s -> 0 < tau_V' s j.
Proof.
  intros HNa HK HM Hl Hs. destruct (Hs j) as (Hn & Hm & Hh & Hp).
  unfold tau_V, C. apply Rdiv_lt_0_compat; [lra |].
  assert (0 < m s j ^ 3) by (apply pow_lt; lra).
  assert (0 < n s j ^ 4) by (apply pow_lt; lra).
  assert (0 < g_Na j * m s j ^ 3 * h s j)
    by (apply Rmult_lt_0_compat; [apply Rmult_lt_0_compat |]; lra).
  assert (0 < g_K j * n s j ^ 4) by (apply Rmult_lt_0_compat; lra).
  assert (0 < g_M j * p s j) by (apply Rmult_lt_0_compat; lra).
  lra.
Qed.

(** C8.  With positive conductances and a positive [tau_max] (on the
    forward grid, [dt > 0]) the gating variables [n], [m], [h], [p] lie in
    the unit interval before every iteration and after the last one, and
    the membrane time constant [tau_V] that the iteration computes is
    positive. *)
Theorem gating_variables_bounded (timesteps : list R) (k : nat) (j : J) :
  0 < dt ->
  (forall i, 0 < g_Na i /\ 0 < g_K i /\ 0 < g_M i /\ 0 < g_leak i) ->
  (forall i, 0 < tau_max i) ->
  let s := state_after T dt pad V_0 I g_Na g_K g_M g_leak tau_max V_t sigma
             E_leak randn timesteps k in
  0 <= n s j <= 1 /\ 0 <= m s j <= 1 /\ 0 <= h s j <= 1 /\ 0 <= p s j <= 1 /\
  0 < tau_V g_Na g_K g_M g_leak s j.
Proof.
  intros Hdt Hg Htau s.
  assert (Hs : gates_in_unit s)
    by (apply fold_gates_in_unit; auto using init_gates_in_unit).
  destruct (Hs j) as (Hn & Hm & Hh & Hp). destruct (Hg j) as (? & ? & ? & ?).
  repeat split; try lra. now apply tau_V_pos.
Qed.

(** *** Without noise amplitude the random stream does not matter *)

Lemma step_noiseless (randn' : nat -> J -> R) (s : State) (it : nat * R) :
  (forall j, sigma j = 0) ->
  step' s it
  = step T dt pad I g_Na g_K g_M g_leak tau_max V_t sigma E_leak
      randn' s it.
Proof.
  intros Hsigma. destruct it as [i t].
  assert (HV : V_inf' i t s
               = V_inf T dt pad I g_Na g_K g_M g_leak sigma E_leak
                   randn' i t s).
  { apply functional_extensionality. intros j. unfold V_inf.
    rewrite (Hsigma j). unfold Rdiv. now rewrite !Rmult_0_l. }
  unfold step. now rewrite HV.
Qed.

Lemma iterations_noiseless (randn' : nat -> J -> R) (timesteps : list R) :
  (forall j, sigma j = 0) ->
  iterations' timesteps
  = iterations T dt pad V_0 I g_Na g_K g_M g_leak tau_max V_t sigma
      E_leak randn' timesteps.
Proof.
  intros Hsigma. unfold iterations.
  generalize (enumerate timesteps) init'.
  intros its. induction its as [| it its IH]; intros s; simpl; [reflexivity |].
  rewrite (step_noiseless randn') by assumption. apply IH.
Qed.

Lemma voltages_length (its : list (nat * R)) (s : State) :
  length (voltages (fold_left step' its s))
  = (length (voltages s) + length its)%nat.
Proof.
  revert s. induction its as [| [i t] its IH]; intros s; simpl; [lia |].
  rewrite IH. simpl. rewrite length_app. simpl. lia.
Qed.

Lemma iterations_voltages_length (timesteps : list R) :
  length (voltages (iterations' timesteps)) = length timesteps.
Proof.
  unfold iterations. rewrite voltages_length, enumerate_length.
  reflexivity.
Qed.

(** The loop only appends to [voltages]. *)
Lemma voltages_extend (its : list (nat * R)) (s : State) :
  exists more : list (J -> R),
    voltages (fold_left step' its s) = voltages s ++ more.
Proof.
  revert s. induction its as [| [i t] its IH]; intros s; cbn [fold_left].
  - exists []. now rewrite app_nil_r.
  - destruct (IH (step' s (i, t))) as [more Hmore]. rewrite Hmore.
    cbn [step voltages]. rewrite <- app_assoc. eauto.
Qed.

(** Sample number [k] of the trace is the voltage that iteration number
    [k] computed. *)
Lemma voltages_nth (timesteps : list R) (k : nat) (d : J -> R) :
  (k < length timesteps)%nat ->
  nth k (voltages (iterations' timesteps)) d
  = V (state_after' timesteps (S k)).
Proof.
  intros Hk.
  assert (Hlen : length (voltages (state_after' timesteps k)) = k).
  { unfold state_after. rewrite voltages_length, length_firstn.
    rewrite enumerate_length. simpl. lia. }
  assert (Hsplit : exists more,
             voltages (iterations' timesteps)
             = voltages (state_after' timesteps (S k)) ++ more).
  { destruct (voltages_extend (skipn (S k) (enumerate timesteps))
                (state_after' timesteps (S k))) as [more Hmore].
    exists more. rewrite <- Hmore. unfold iterations, state_after.
    now rewrite <- fold_left_app, firstn_skipn. }
  destruct Hsplit as [more ->].
  rewrite (state_after_succ _ _ Hk). cbn [step voltages V].
  rewrite <- app_assoc. rewrite app_nth2 by lia.
  rewrite Hlen, Nat.sub_diag. reflexivity.
Qed.

End Loop.

(** ** The time grid *)

Lemma arange_grid (stop step : R) :
  step <> 0 -> np.arange stop step = Some (grid stop step).
Proof.
  intros H. unfold np.arange. apply Reqb_false in H. now rewrite H.
Qed.

Lemma arange_zero_step (stop : R) : np.arange stop 0 = None.
Proof.
  unfold np.arange.
  now replace (Reqb 0 0) with true by (symmetry; now apply Reqb_true).
Qed.

Lemma grid_length_eq (duration dt : R) :
  length (grid duration dt) = grid_length duration dt.
Proof. unfold grid. now rewrite length_map, length_seq. Qed.

Lemma grid_nth (duration dt : R) (k : nat) :
  (k < grid_length duration dt)%nat -> nth k (grid duration dt) 0 = INR k * dt.
Proof.
  intros Hk. unfold grid. set (f := fun i : nat => INR i * dt).
  rewrite (nth_indep _ 0 (f O)) by now rewrite length_map, length_seq.
  rewrite map_nth, seq_nth by exact Hk. reflexivity.
Qed.

(** The grid has a point exactly when the quotient is positive. *)
Lemma grid_length_pos_iff (duration dt : R) :
  (0 < grid_length duration dt)%nat <-> 0 < duration / dt.
Proof.
  unfold grid_length. set (q := duration / dt).
  pose proof (Zceil_bound (binary64 q)) as [Hlo Hhi]. split.
  - intros H. destruct (Rlt_dec 0 q) as [Hq | Hq]; [exact Hq |].
    pose proof (binary64_nonpos q ltac:(lra)) as Hr.
    assert (Hz : (1 <= Zceil (binary64 q))%Z) by lia.
    apply IZR_le in Hz. lra.
  - intros H. pose proof (binary64_pos q H) as Hr.
    assert (Hz : (0 < Zceil (binary64 q))%Z) by (apply lt_IZR; lra).
    lia.
Qed.

Lemma grid_length_pos (duration dt : R) :
  0 < duration -> 0 < dt -> (0 < grid_length duration dt)%nat.
Proof.
  intros HT Hdt. apply grid_length_pos_iff. now apply Rdiv_lt_0_compat.
Qed.

(** A quotient that is an integer below [2 ^ 53] is not rounded. *)
Lemma grid_length_integer (duration dt : R) (z : Z) :
  (z < 2 ^ 53)%Z ->
  duration / dt = IZR z -> grid_length duration dt = Z.to_nat z.
Proof.
  intros Hz H. unfold grid_length. rewrite H.
  destruct (Z_lt_le_dec 0 z) as [Hpos | Hneg].
  - rewrite binary64_IZR by lia. f_equal. apply Zceil_eq. lra.
  - pose proof (binary64_nonpos (IZR z) ltac:(now apply (IZR_le z 0))) as Hr.
    pose proof (Zceil_bound (binary64 (IZR z))) as [Hlo _].
    assert (Hc : (Zceil (binary64 (IZR z)) < 1)%Z) by (apply lt_IZR; lra).
    lia.
Qed.

(** Then the grid is half-open: its points are exactly the multiples of
    [dt] below [duration]. *)
Lemma grid_length_iff (duration dt : R) (z : Z) (k : nat) :
  (z < 2 ^ 53)%Z -> duration / dt = IZR z -> 0 < dt ->
  (k < grid_length duration dt)%nat <-> INR k * dt < duration.
Proof.
  intros Hz H Hdt. rewrite (grid_length_integer _ _ z Hz H).
  assert (HT : duration = IZR z * dt).
  { rewrite <- H. field. lra. }
  rewrite HT, INR_IZR_INZ. split.
  - intros Hk. apply Rmult_lt_compat_r; [exact Hdt |]. apply IZR_lt. lia.
  - intros Hk. apply Rmult_lt_reg_r in Hk; [| exact Hdt].
    apply lt_IZR in Hk. lia.
Qed.

(** Rounding moves the number of points by one at most: below [2 ^ 53]
    it is the ceiling of the exact quotient or one less. *)
Lemma grid_length_ceil (duration dt : R) :
  0 < duration / dt < powerRZ 2 53 ->
  (Zceil (duration / dt) - 1 <= Z.of_nat (grid_length duration dt)
   <= Zceil (duration / dt))%Z.
Proof.
  intros Hq. unfold grid_length. set (q := duration / dt) in *.
  pose proof (Zfloor_bound q) as [Hf Hf'].
  pose proof (Zceil_bound q) as [Hc Hc'].
  destruct (binary64_between q (Zfloor q) (Zceil q) Hq ltac:(lra))
    as [Hlo Hhi].
  pose proof (Zceil_bound (binary64 q)) as [Hr Hr'].
  pose proof (binary64_pos q ltac:(lra)) as Hpos.
  assert (H1 : (0 < Zceil (binary64 q))%Z) by (apply lt_IZR; lra).
  assert (H2 : (Zceil (binary64 q) <= Zceil q)%Z).
  { assert (Zceil (binary64 q) - 1 < Zceil q)%Z; [| lia].
    apply lt_IZR. rewrite minus_IZR. lra. }
  assert (H3 : (Zceil q - 1 <= Zceil (binary64 q))%Z).
  { assert (Zceil q - 1 < Zceil (binary64 q) + 1)%Z; [| lia].
    apply lt_IZR. rewrite minus_IZR, plus_IZR. lra. }
  lia.
Qed.

(** With the default constants the grid has 4000 points, whether the
    step is the real number 0.02 or the double that the literal denotes. *)
Lemma grid_length_default : grid_length 80 0.02 = 4000%nat.
Proof. rewrite (grid_length_integer _ _ 4000); [reflexivity | lia | lra]. Qed.

Lemma grid_length_default_binary64 :
  grid_length 80 (binary64 0.02) = 4000%nat.
Proof.
  unfold grid_length. rewrite quotient_80_0_02.
  rewrite (Zceil_eq 4000); [reflexivity | lra].
Qed.

(** The number of points is a ceiling, not a floor: three steps of 0.3 do
    not reach 1, so a fourth point lies below 1. *)
Lemma grid_length_not_floor :
  grid_length 1 0.3 = 4%nat /\ Zfloor (1 / 0.3) = 3%Z.
Proof.
  split.
  - unfold grid_length. rewrite quotient_1_0_3.
    rewrite (Zceil_eq 4); [reflexivity | lra].
  - apply Zfloor_eq. simpl. lra.
Qed.

(** ** [voltage_trace] *)

Section VoltageTrace.

Context {B : Type}.
Implicit Types (theta : ndarray B R) (constants : gmap string R).
Implicit Types (randn : nat -> unit * B -> R).

Lemma mapM_item_Some {A : Type} (x : ndarray A R) (indices : list nat)
    (l : list (A -> R)) :
  mapM (np.item x) indices = Some l ->
  l = map (fun i => fun b => nth i (row x b) 0) indices.
Proof.
  revert l. induction indices as [| i indices IH]; intros l; simpl.
  - now intros [= <-].
  - destruct (np.item x i) as [f |] eqn:Hf; [| discriminate]. simpl.
    destruct (mapM (np.item x) indices) as [l' |]; [| discriminate].
    simpl. intros [= <-]. f_equal; [| now apply IH].
    unfold np.item in Hf.
    destruct (decide (i < axis_len x)%nat); now inversion Hf.
Qed.

Lemma unpack_theta theta :
  axis_len theta = 8%nat ->
  mapM (np.item (np.expand_dims theta)) (seq 0 8)
  = Some (map (parameter theta) (seq 0 8)).
Proof.
  intros H. unfold np.item. simpl. rewrite H. reflexivity.
Qed.

(** What [voltage_trace] computes once its look-ups succeed. *)
Lemma voltage_trace_unfold theta constants randn (T dt pad V_0 I : R) :
  constants !! "duration" = Some T ->
  constants !! "time_step" = Some dt ->
  constants !! "padding" = Some pad ->
  constants !! "initial_voltage" = Some V_0 ->
  constants !! "current" = Some I ->
  axis_len theta = 8%nat ->
  dt <> 0 ->
  voltage_trace theta constants randn
  = x ← np.stack (voltages (iterations T dt pad V_0 I
                     (parameter theta 0) (parameter theta 1)
                     (parameter theta 2) (parameter theta 3)
                     (parameter theta 4) (parameter theta 5)
                     (parameter theta 6) (parameter theta 7)
                     randn (grid T dt)));
    Some (np.squeeze x).
Proof.
  intros HT Hdt Hpad HV HI H8 Hne. unfold voltage_trace.
  rewrite HT, Hdt, Hpad, HV, HI. cbn [mbind option_bind].
  rewrite (unpack_theta _ H8). cbn [mbind option_bind map seq].
  rewrite (arange_grid _ _ Hne). reflexivity.
Qed.

(** On a forward grid the call succeeds and the trace has one sample per
    grid point. *)
Lemma voltage_trace_result theta constants randn (T dt pad V_0 I : R) :
  constants !! "duration" = Some T ->
  constants !! "time_step" = Some dt ->
  constants !! "padding" = Some pad ->
  constants !! "initial_voltage" = Some V_0 ->
  constants !! "current" = Some I ->
  axis_len theta = 8%nat ->
  0 < T -> 0 < dt ->
  exists x : ndarray B R,
    voltage_trace theta constants randn = Some x /\
    axis_len x = grid_length T dt /\
    well_shaped x.
Proof.
  intros HT Hdt Hpad HV HI H8 HTpos Hdtpos.
  rewrite (voltage_trace_unfold _ _ _ T dt pad V_0 I) by (auto; lra).
  set (s := iterations _ _ _ _ _ _ _ _ _ _ _ _ _ _ _).
  assert (Hlen : length (voltages s) = grid_length T dt).
  { unfold s. now rewrite iterations_voltages_length, grid_length_eq. }
  pose proof (grid_length_pos T dt HTpos Hdtpos) as Hpos.
  destruct (voltages s) as [| v vs] eqn:Hv; [simpl in Hlen; lia |].
  simpl. eexists. split; [reflexivity |]. simpl.
  split; [exact Hlen |]. intros b. simpl. now rewrite length_map.
Qed.

(** Sample number [k] of the returned trace is the voltage after
    iteration number [k], the one for the grid time [k * dt]. *)
Lemma voltage_trace_sample theta constants randn (T dt pad V_0 I : R)
    (x : ndarray B R) (b : B) (k : nat) :
  constants !! "duration" = Some T ->
  constants !! "time_step" = Some dt ->
  constants !! "padding" = Some pad ->
  constants !! "initial_voltage" = Some V_0 ->
  constants !! "current" = Some I ->
  axis_len theta = 8%nat ->
  dt <> 0 ->
  voltage_trace theta constants randn = Some x ->
  (k < grid_length T dt)%nat ->
  nth k (row x b) 0
  = V (state_after T dt pad V_0 I
         (parameter theta 0) (parameter theta 1) (parameter theta 2)
         (parameter theta 3) (parameter theta 4) (parameter theta 5)
         (parameter theta 6) (parameter theta 7) randn (grid T dt) (S k))
      (tt, b).
Proof.
  intros HT Hdt Hpad HV HI H8 Hne Hx Hk.
  rewrite (voltage_trace_unfold _ _ _ T dt pad V_0 I) in Hx by auto.
  set (s := iterations _ _ _ _ _ _ _ _ _ _ _ _ _ _ _) in Hx.
  assert (Hlen : length (voltages s) = grid_length T dt).
  { unfold s. now rewrite iterations_voltages_length, grid_length_eq. }
  assert (Hrow : row x b = map (fun v => v (tt, b)) (voltages s)).
  { destruct (voltages s) as [| v vs]; [discriminate |].
    simpl in Hx. injection Hx as <-. reflexivity. }
  rewrite Hrow. set (f := fun v : unit * B -> R => v (tt, b)).
  rewrite (nth_indep _ 0 (f (fun _ => 0))) by (rewrite length_map; lia).
  rewrite map_nth. unfold s.
  rewrite voltages_nth by (rewrite grid_length_eq; exact Hk).
  reflexivity.
Qed.

(** C2, amended.  For [theta] of shape [..., 8] and constants with a
    positive duration [T] and a positive time step [dt], [voltage_trace]
    returns an array of shape [..., N] where [N] is the ceiling of the
    quotient of [T] by [dt] as binary64 rounds it, the length of
    [np.arange].  For a quotient below [2 ^ 53] that is [ceil (T / dt)] or
    one less; when [T / dt] is an integer it is that integer, and the
    samples belong to the points [k * dt] below [T]; for the duration 80
    and the step 0.02, the real number or the double, it is 4000. *)
Theorem voltage_trace_shape theta constants randn (T dt pad V_0 I : R) :
  constants !! "duration" = Some T ->
  constants !! "time_step" = Some dt ->
  constants !! "padding" = Some pad ->
  constants !! "initial_voltage" = Some V_0 ->
  constants !! "current" = Some I ->
  axis_len theta = 8%nat ->
  0 < T -> 0 < dt ->
  exists x : ndarray B R,
    voltage_trace theta constants randn = Some x /\
    axis_len x = Z.to_nat (Zceil (binary64 (T / dt))) /\
    well_shaped x /\
    (T / dt < powerRZ 2 53 ->
     (Zceil (T / dt) - 1 <= Z.of_nat (axis_len x) <= Zceil (T / dt))%Z) /\
    (forall z : Z,
        (z < 2 ^ 53)%Z -> T / dt = IZR z ->
        axis_len x = Z.to_nat z /\
        forall k : nat, (k < axis_len x)%nat <-> INR k * dt < T) /\
    grid_length 80 0.02 = 4000%nat /\
    grid_length 80 (binary64 0.02) = 4000%nat.
Proof.
  intros HT Hdt Hpad HV HI H8 HTpos Hdtpos.
  destruct (voltage_trace_result theta constants randn T dt pad V_0 I)
    as (x & Hx & Hlen & Hshape); auto.
  exists x. split; [exact Hx |]. split; [exact Hlen |].
  split; [exact Hshape |].
  assert (Hq : 0 < T / dt) by now apply Rdiv_lt_0_compat.
  split; [| split; [| split]].
  - intros Hlt. rewrite Hlen. apply grid_length_ceil. lra.
  - intros z Hz Hexact. rewrite Hlen. split.
    + now apply grid_length_integer.
    + intros k. now apply (grid_length_iff T dt z).
  - apply grid_length_default.
  - apply grid_length_default_binary64.
Qed.

(** C7.  When the component [sigma] of [theta] is 0 at every batch
    element, two runs of [voltage_trace] on the same [theta] and constants
    return the same thing whatever the random draws are. *)
Theorem voltage_trace_noiseless_deterministic theta constants
    (randn1 randn2 : nat -> unit * B -> R) :
  (forall b : B, nth 6 (row theta b) 0 = 0) ->
  voltage_trace theta constants randn1 = voltage_trace theta constants randn2.
Proof.
  intros Hsigma. unfold voltage_trace.
  destruct (constants !! "duration") as [T |]; [| reflexivity].
  destruct (constants !! "time_step") as [dt |]; [| reflexivity].
  destruct (constants !! "padding") as [pad |]; [| reflexivity].
  destruct (constants !! "initial_voltage") as [V_0 |]; [| reflexivity].
  destruct (constants !! "current") as [I |]; [| reflexivity].
  cbn [mbind option_bind].
  destruct (mapM _ _) as [l |] eqn:Hl; [| reflexivity].
  apply mapM_item_Some in Hl. subst l. cbn [mbind option_bind map seq].
  destruct (np.arange T dt) as [timesteps |]; [| reflexivity].
  cbn [mbind option_bind].
  rewrite (iterations_noiseless _ _ _ _ _ _ _ _ _ _ _ _ _ randn1 randn2);
    [reflexivity |].
  intros [u b]. apply Hsigma.
Qed.

End VoltageTrace.

(** ** Boolean masks *)

Lemma select_none {A : Type} (mask : list bool) (a : list A) :
  Forall (fun c : bool => c = false) mask -> np.select mask a = [].
Proof.
  intros H. revert a. induction H as [| c mask Hc _ IH]; intros a.
  - now destruct a.
  - destruct a as [| v a]; [reflexivity |]. simpl. rewrite Hc. apply IH.
Qed.

Lemma select_window (lo hi dt : R) (a : list R) (start : nat) :
  np.select
    (map (fun t => Rleb lo t && Rltb t hi)
         (map (fun i : nat => INR i * dt) (seq start (length a)))) a
  = map snd
      (List.filter (fun it : nat * R => Rleb lo (INR (fst it) * dt)
                                        && Rltb (INR (fst it) * dt) hi)
                   (combine (seq start (length a)) a)).
Proof.
  revert start. induction a as [| v a IH]; intros start; [reflexivity |].
  cbn [length seq map combine np.select List.filter fst].
  destruct (Rleb lo (INR start * dt) && Rltb (INR start * dt) hi);
    cbn [map snd]; now rewrite IH.
Qed.

Lemma select_grid_window (lo hi T dt : R) (a : list R) :
  length a = grid_length T dt ->
  np.select (map (fun t => Rleb lo t && Rltb t hi) (grid T dt)) a
  = samples_in_window lo hi dt a.
Proof.
  intros H. unfold grid, samples_in_window. rewrite <- H. apply select_window.
Qed.

Lemma window_mask_false (lo hi T dt : R) :
  (forall k : nat, (k < grid_length T dt)%nat ->
                   ~ (lo <= INR k * dt < hi)) ->
  Forall (fun c : bool => c = false)
         (map (fun t => Rleb lo t && Rltb t hi) (grid T dt)).
Proof.
  intros H. unfold grid. rewrite map_map. apply Forall_map.
  apply Forall_forall. intros k Hk. apply elem_of_seq in Hk.
  specialize (H k ltac:(lia)).
  destruct (Rleb lo (INR k * dt)) eqn:E1; [| reflexivity].
  destruct (Rltb (INR k * dt) hi) eqn:E2; [| reflexivity].
  apply Rleb_true in E1. apply Rltb_true in E2. exfalso. apply H. lra.
Qed.

(** ** [summarize] *)

Section Summarize.

Context {B : Type}.
Implicit Types (x : ndarray B R) (constants : gmap string R).

(** What [summarize] computes once its look-ups succeed and the mask fits
    the trace. *)
Lemma summarize_unfold x constants (T dt pad : R) :
  constants !! "duration" = Some T ->
  constants !! "time_step" = Some dt ->
  constants !! "padding" = Some pad ->
  dt <> 0 ->
  axis_len x = grid_length T dt ->
  summarize x constants
  = Some (mk_ndarray 7 (fun b =>
      let rest :=
        np.select (map (fun t => Rleb (pad / 2) t && Rltb t pad) (grid T dt))
                  (row x b) in
      let stim :=
        np.select (map (fun t => Rleb pad t && Rltb t (T - pad)) (grid T dt))
                  (row x b) in
      [ Fin (INR (spike_count (row x b)));
        np.mean rest; np.std rest;
        np.mean stim; np.var stim; sp.skew stim; sp.kurtosis stim ])).
Proof.
  intros HT Hdt Hpad Hne Hlen. unfold summarize.
  rewrite HT, Hdt, Hpad. cbn [mbind option_bind].
  rewrite (arange_grid _ _ Hne). cbn [mbind option_bind].
  unfold np.index_mask. rewrite !length_map, grid_length_eq.
  destruct (decide (axis_len x = grid_length T dt)) as [_ | Hn];
    [| contradiction].
  reflexivity.
Qed.

(** A mask of another length than the trace raises. *)
Lemma summarize_mismatch x constants (T dt pad : R) :
  constants !! "duration" = Some T ->
  constants !! "time_step" = Some dt ->
  constants !! "padding" = Some pad ->
  axis_len x <> grid_length T dt ->
  summarize x constants = None.
Proof.
  intros HT Hdt Hpad Hlen. unfold summarize.
  rewrite HT, Hdt, Hpad. cbn [mbind option_bind].
  destruct (Req_dec_T dt 0) as [-> | Hne].
  - now rewrite arange_zero_step.
  - rewrite (arange_grid _ _ Hne). cbn [mbind option_bind].
    unfold np.index_mask. rewrite !length_map, grid_length_eq.
    destruct (decide (axis_len x = grid_length T dt)); [contradiction |].
    reflexivity.
Qed.

(** C3, amended.  For a trace whose time axis has as many samples as the
    grid of the constants has points, [summarize] returns an array whose
    trailing axis has length 7 over the batch shape of the trace, whatever
    the windows select. *)
Theorem summarize_shape x constants (T dt pad : R) :
  constants !! "duration" = Some T ->
  constants !! "time_step" = Some dt ->
  constants !! "padding" = Some pad ->
  dt <> 0 ->
  axis_len x = grid_length T dt ->
  exists y : ndarray B float,
    summarize x constants = Some y /\
    axis_len y = 7%nat /\
    well_shaped y.
Proof.
  intros HT Hdt Hpad Hne Hlen.
  rewrite (summarize_unfold _ _ T dt pad) by assumption.
  eexists. split; [reflexivity |]. split; [reflexivity |].
  intros b. reflexivity.
Qed.



End Summarize.

(** ** The spike count *)

Lemma diff_length (a : list R) : length (np.diff a) = (length a - 1)%nat.
Proof.
  induction a as [| x [| y a] IH]; [reflexivity | reflexivity |].
  cbn [np.diff length] in *. rewrite IH. lia.
Qed.

Lemma diff_nth (a : list R) (i : nat) :
  (S i < length a)%nat -> nth i (np.diff a) 0 = nth (S i) a 0 - nth i a 0.
Proof.
  revert i. induction a as [| x [| y a] IH]; intros i Hi;
    [simpl in Hi; lia | simpl in Hi; lia |].
  destruct i as [| i]; [reflexivity |].
  cbn [np.diff]. cbn [nth]. rewrite IH by (simpl in *; lia). reflexivity.
Qed.

Lemma sign_zero : np.sign 0 = 0.
Proof. unfold np.sign. now Rdecide. Qed.

Lemma sign_pos x : 0 < x -> np.sign x = 1.
Proof. intros H. unfold np.sign. now Rdecide. Qed.

Lemma sign_neg x : x < 0 -> np.sign x = -1.
Proof. intros H. unfold np.sign. now Rdecide. Qed.

Lemma sign_nth (l : list R) (i : nat) :
  nth i (map np.sign l) 0 = np.sign (nth i l 0).
Proof.
  transitivity (nth i (map np.sign l) (np.sign 0));
    [now rewrite sign_zero | apply map_nth].
Qed.

Lemma count_map_filter {A : Type} (f : A -> bool) (l : list A) :
  np.count (map f l) = length (List.filter f l).
Proof.
  unfold np.count. induction l as [| a l IH]; [reflexivity |].
  cbn [map List.filter]. destruct (f a); cbn [length]; now rewrite IH.
Qed.

Lemma filter_by_index {A : Type} (f : A -> bool) (l : list A) (d : A)
    (start : nat) :
  length (List.filter f l)
  = length (List.filter (fun i => f (nth (i - start) l d))
                        (seq start (length l))).
Proof.
  revert start. induction l as [| a l IH]; intros start; [reflexivity |].
  cbn [length seq List.filter]. rewrite Nat.sub_diag. cbn [nth].
  rewrite (List.filter_ext_in
             (fun i => f (nth (i - start) (a :: l) d))
             (fun i => f (nth (i - S start) l d))).
  - destruct (f a); cbn [length]; now rewrite <- IH.
  - intros i Hi. apply in_seq in Hi.
    replace (i - start)%nat with (S (i - S start)) by lia. reflexivity.
Qed.

(** The count of [summarize] is a count over the indices of the clipped
    trace. *)
Lemma spike_count_by_index (x : list R) :
  spike_count x = negative_second_differences (clip x).
Proof.
  unfold spike_count, negative_second_differences.
  change (map (fun v => np.maximum v (-10)) x) with (clip x).
  set (y := clip x). rewrite count_map_filter.
  rewrite (filter_by_index _ _ 0 0).
  rewrite diff_length, length_map, diff_length.
  replace (length y - 1 - 1)%nat with (length y - 2)%nat by lia.
  f_equal. apply List.filter_ext_in. intros i Hi. apply in_seq in Hi.
  rewrite Nat.sub_0_r.
  rewrite diff_nth by (rewrite length_map, diff_length; lia).
  rewrite !sign_nth, !diff_nth by lia. reflexivity.
Qed.

Lemma second_difference_negative (a b : R) :
  Rltb (np.sign b - np.sign a) 0
  = (Rltb 0 a && Rleb b 0) || (Reqb a 0 && Rltb b 0).
Proof.
  destruct (Rlt_dec 0 a) as [Ha | Ha]; [rewrite (sign_pos a Ha) |
    destruct (Rlt_dec a 0) as [Ha' | Ha'];
      [rewrite (sign_neg a Ha') | replace a with 0 by lra; rewrite sign_zero]];
  (destruct (Rlt_dec 0 b) as [Hb | Hb]; [rewrite (sign_pos b Hb) |
    destruct (Rlt_dec b 0) as [Hb' | Hb'];
      [rewrite (sign_neg b Hb') | replace b with 0 by lra; rewrite sign_zero]]);
  Rdecide; reflexivity.
Qed.

(** C5, amended.  The spike count of [summarize] is the number of indices
    at which the second difference of the sign of the first difference of
    the trace clipped from below at -10 is negative.  When every flat step
    of the clipped trace lies in a valley, this is the number of samples
    of the clipped trace that are strictly above both their neighbours. *)
Theorem spike_count_local_maxima (x : list R) :
  spike_count x = negative_second_differences (clip x) /\
  (flat_only_in_valleys (clip x) -> spike_count x = local_maxima (clip x)).
Proof.
  split; [apply spike_count_by_index |]. intros Hflat.
  rewrite spike_count_by_index.
  unfold negative_second_differences, local_maxima. set (y := clip x) in *.
  f_equal. apply List.filter_ext_in. intros i Hi. apply in_seq in Hi.
  destruct (Hflat i ltac:(lia)) as [Hrise Hfall].
  unfold sign_of_difference. rewrite second_difference_negative.
  set (a := nth i y 0) in *. set (b := nth (S i) y 0) in *.
  set (c := nth (S (S i)) y 0) in *.
  destruct (Rlt_dec a b) as [Hab | Hab]; destruct (Rlt_dec c b) as [Hcb | Hcb].
  - Rdecide. reflexivity.
  - specialize (Hrise Hab). Rdecide. reflexivity.
  - specialize (Hfall Hcb). Rdecide. reflexivity.
  - Rdecide. destruct (Reqb (b - a) 0); reflexivity.
Qed.

(** ** The constructor of [HH] *)

Lemma default_dom : dom HH.default = constant_names.
Proof.
  unfold HH.default, constant_names.
  rewrite !dom_insert_L, dom_singleton_L. set_solver.
Qed.

Lemma init_lookup (summary : option bool) (kwargs : gmap string R)
    (k : string) :
  HH.constants (HH.__init__ summary kwargs) !! k
  = (fun v => HH.get kwargs k v) <$> HH.default !! k.
Proof.
  unfold HH.__init__. cbn [HH.constants]. rewrite map_lookup_imap.
  now destruct (HH.default !! k).
Qed.

Lemma get_default (kwargs : gmap string R) (k : string) (v : R) :
  HH.get kwargs k v = default v (kwargs !! k).
Proof. unfold HH.get. now destruct (kwargs !! k). Qed.

(** C10.  Whatever keyword arguments the constructor receives, its
    constants have exactly the five names [duration], [time_step],
    [padding], [initial_voltage], [current]; each value is the keyword
    argument of that name when there is one and the default (80, 0.02, 10,
    -70, 5e-4 / (pi * 7e-3^2)) otherwise; a keyword argument [k] of any
    other name leaves no trace in the object; and [summary] is true when
    not passed. *)
Theorem init_constants (summary : option bool) (kwargs : gmap string R)
    (k : string) (w : R) :
  k ∉ constant_names ->
  let self := HH.__init__ summary kwargs in
  dom (HH.constants self) = constant_names /\
  HH.constants self !! "duration" = Some (default 80 (kwargs !! "duration")) /\
  HH.constants self !! "time_step"
    = Some (default 0.02 (kwargs !! "time_step")) /\
  HH.constants self !! "padding" = Some (default 10 (kwargs !! "padding")) /\
  HH.constants self !! "initial_voltage"
    = Some (default (-70) (kwargs !! "initial_voltage")) /\
  HH.constants self !! "current"
    = Some (default (5e-4 / (PI * 7e-3 ^ 2)) (kwargs !! "current")) /\
  HH.constants self !! k = None /\
  HH.__init__ summary (<[k := w]> kwargs) = self /\
  HH.summary (HH.__init__ None kwargs) = true.
Proof.
  intros Hk self. subst self.
  assert (Hnone : HH.default !! k = None).
  { apply not_elem_of_dom. now rewrite default_dom. }
  split.
  { apply set_eq. intros i. rewrite elem_of_dom, init_lookup, <- default_dom.
    rewrite elem_of_dom. unfold is_Some.
    destruct (HH.default !! i); simpl; split; intros [? ?]; eauto; discriminate. }
  repeat split; try (rewrite init_lookup, <- get_default; reflexivity).
  - now rewrite init_lookup, Hnone.
  - unfold HH.__init__. f_equal. apply map_eq. intros i.
    rewrite !map_lookup_imap.
    destruct (HH.default !! i) as [v |] eqn:Hi; [| reflexivity].
    simpl. unfold HH.get.
    rewrite lookup_insert_ne; [reflexivity |].
    intros ->. congruence.
Qed.

(** ** The call of [HH] *)

(** With [summary] set, a call on [theta] of shape [..., 8] hands
    [summarize] a trace that fits its mask, and returns 7 numbers per
    trace. *)
Lemma call_summary_shape {B : Type} (self : HH.t) (theta : ndarray B R)
    (randn : nat -> unit * B -> R) (T dt pad V_0 I : R) :
  HH.constants self !! "duration" = Some T ->
  HH.constants self !! "time_step" = Some dt ->
  HH.constants self !! "padding" = Some pad ->
  HH.constants self !! "initial_voltage" = Some V_0 ->
  HH.constants self !! "current" = Some I ->
  axis_len theta = 8%nat ->
  0 < T -> 0 < dt ->
  HH.summary self = true ->
  exists y : ndarray B float,
    HH.__call__ self theta randn = Some (HH.Summary y) /\
    axis_len y = 7%nat /\
    well_shaped y.
Proof.
  intros HT Hdt Hpad HV HI H8 HTpos Hdtpos Hsum.
  destruct (voltage_trace_result theta (HH.constants self) randn
              T dt pad V_0 I) as (x & Hx & Hlen & _); auto.
  unfold HH.__call__. rewrite Hx, Hsum. cbn [mbind option_bind].
  rewrite (summarize_unfold x _ T dt pad) by (auto; lra).
  cbn [mbind option_bind]. eexists. split; [reflexivity |].
  split; [reflexivity |]. intros b. reflexivity.
Qed.

(** Without [summary] the call returns the trace itself. *)
Lemma call_trace {B : Type} (self : HH.t) (theta : ndarray B R)
    (randn : nat -> unit * B -> R) :
  HH.summary self = false ->
  HH.__call__ self theta randn
  = HH.Trace <$> voltage_trace theta (HH.constants self) randn.
Proof.
  intros Hsum. unfold HH.__call__. rewrite Hsum.
  now destruct (voltage_trace _ _ _).
Qed.

(** ** Evaluation on concrete traces *)

Lemma Rmax_clip_above v : -10 <= v -> Rmax v (-10) = v.
Proof. intros H. now apply Rmax_left. Qed.

Lemma Rmax_clip_below v : v <= -10 -> Rmax v (-10) = -10.
Proof. intros H. now apply Rmax_right. Qed.

Ltac Rclip :=
  repeat match goal with
  | |- context [Rmax ?v (-10)] =>
      first [ rewrite (Rmax_clip_above v) by lra
            | rewrite (Rmax_clip_below v) by lra ]
  end.

Ltac Rsign :=
  repeat match goal with
  | |- context [np.sign ?v] =>
      first [ rewrite (sign_pos v) by lra
            | rewrite (sign_neg v) by lra
            | replace (np.sign v) with 0
                by (replace v with 0 by lra; symmetry; apply sign_zero) ]
  end.

Lemma grid_length_short_run : grid_length 8 1 = 8%nat.
Proof. rewrite (grid_length_integer _ _ 8); [reflexivity | lia | lra]. Qed.

Lemma grid_length_no_window : grid_length 2 1 = 2%nat.
Proof. rewrite (grid_length_integer _ _ 2); [reflexivity | lia | lra]. Qed.

Lemma clip_one_spike :
  clip (row one_spike tt) = [-10; -10; -10; 20; -10; -10; -10; -10].
Proof. unfold clip. cbn [row one_spike map]. now Rclip. Qed.

Lemma clip_flat_top : clip flat_top = flat_top.
Proof. unfold clip, flat_top. cbn [map]. now Rclip. Qed.

Lemma spike_count_one_spike : spike_count (row one_spike tt) = 1%nat.
Proof.
  unfold spike_count, np.maximum. cbn [row one_spike map]. Rclip.
  cbn [np.diff map]. Rsign. cbn [np.diff map]. unfold np.count. Rdecide.
  reflexivity.
Qed.

Lemma spike_count_flat_top : spike_count flat_top = 2%nat.
Proof.
  unfold spike_count, np.maximum, flat_top. cbn [map]. Rclip.
  cbn [np.diff map]. Rsign. cbn [np.diff map]. unfold np.count. Rdecide.
  reflexivity.
Qed.

Lemma local_maxima_flat_top : local_maxima flat_top = 0%nat.
Proof.
  unfold local_maxima, flat_top.
  cbn [length Nat.sub seq List.filter nth]. Rdecide. reflexivity.
Qed.

Lemma flat_top_maxima_flat_top : flat_top_maxima false flat_top = 1%nat.
Proof. unfold flat_top. cbn [flat_top_maxima]. Rdecide. reflexivity. Qed.

Lemma one_spike_flat_only_in_valleys :
  flat_only_in_valleys (clip (row one_spike tt)).
Proof.
  rewrite clip_one_spike. intros i Hi. cbn [length] in Hi.
  do 6 (destruct i as [| i]; [cbn [nth]; split; intros; lra |]). lia.
Qed.

Lemma rest_samples_one_spike :
  samples_in_window (2 / 2) 2 1 (row one_spike tt) = [-70].
Proof.
  unfold samples_in_window.
  cbn [row one_spike length seq combine List.filter fst INR]. Rdecide.
  reflexivity.
Qed.

Lemma stimulus_samples_one_spike :
  samples_in_window 2 (8 - 2) 1 (row one_spike tt) = [-70; 20; -70; -70].
Proof.
  unfold samples_in_window.
  cbn [row one_spike length seq combine List.filter fst INR]. Rdecide.
  reflexivity.
Qed.

Lemma no_window_empty (lo : R) (hi : R) (k : nat) :
  5 <= lo -> (k < grid_length 2 1)%nat -> ~ (lo <= INR k * 1 < hi).
Proof.
  intros Hlo Hk. rewrite grid_length_no_window in Hk.
  assert (Hle : INR k <= 1) by (apply (le_INR k 1); lia). lra.
Qed.

Lemma misspelled_not_a_constant : "durration" ∉ constant_names.
Proof. apply (bool_decide_unpack _). vm_compute. exact Logic.I. Qed.

(** ** The theorems at work on the examples *)

(** With the default constants the trace of [midpoint] has 4000 samples. *)
Lemma voltage_trace_shape_witness :
  exists x : ndarray unit R,
    voltage_trace midpoint HH.default (fun _ _ => 0) = Some x /\
    axis_len x = 4000%nat /\
    well_shaped x.
Proof.
  destruct (voltage_trace_shape midpoint HH.default (fun _ _ => 0)
              80 0.02 10 (-70) (5e-4 / (PI * 7e-3 ^ 2)))
    as (x & Hx & _ & Hshape & _ & Hinteger & _);
    [reflexivity | reflexivity | reflexivity | reflexivity | reflexivity
    | reflexivity | lra | lra |].
  exists x. split; [exact Hx |]. split; [| exact Hshape].
  destruct (Hinteger 4000%Z) as [Hlen _]; [lia | lra | exact Hlen].
Defined.

(** The length follows the rounded quotient, not the exact one.  With the
    step 0.7 over the duration 21 the trace has 31 samples where
    [ceil (21 / 0.7)] is 30: the double for 0.7 lies below 0.7, and the
    last grid time, as binary64 rounds the product, is the duration
    itself.  With the step 0.3 over the duration 3 the trace has 10
    samples, although an eleventh multiple of the step lies below 3 and
    the ceiling of the exact quotient is 11. *)
Lemma voltage_trace_shape_counterexample :
  (exists x : ndarray unit R,
      voltage_trace midpoint coarse_run (fun _ _ => 0) = Some x /\
      axis_len x = 31%nat /\
      Zceil (21 / 0.7) = 30%Z /\
      ~ (forall k : nat, (k < axis_len x)%nat <-> INR k * 0.7 < 21) /\
      binary64 (30 * binary64 0.7) = 21) /\
  (exists x : ndarray unit R,
      voltage_trace midpoint brief_run (fun _ _ => 0) = Some x /\
      axis_len x = 10%nat /\
      Zceil (3 / binary64 0.3) = 11%Z /\
      ~ (forall k : nat,
            (k < axis_len x)%nat <-> INR k * binary64 0.3 < 3)).
Proof.
  split.
  - destruct (voltage_trace_result midpoint coarse_run (fun _ _ => 0)
                21 (binary64 0.7) 2 (-70) 0) as (x & Hx & Hlen & _);
      [reflexivity | reflexivity | reflexivity | reflexivity | reflexivity
      | reflexivity | lra | apply binary64_pos; lra |].
    assert (H31 : axis_len x = 31%nat).
    { rewrite Hlen. unfold grid_length. rewrite quotient_21_0_7.
      rewrite (Zceil_eq 31); [reflexivity | lra]. }
    exists x. split; [exact Hx |]. split; [exact H31 |].
    split; [apply Zceil_eq; lra |]. split; [| exact product_30_0_7].
    intros H. specialize (H 30%nat). rewrite H31 in H.
    assert (Hlt : INR 30 * 0.7 < 21) by (apply H; lia).
    replace (INR 30) with 30 in Hlt by (simpl; lra). lra.
  - destruct (voltage_trace_result midpoint brief_run (fun _ _ => 0)
                3 (binary64 0.3) 1 (-70) 0) as (x & Hx & Hlen & _);
      [reflexivity | reflexivity | reflexivity | reflexivity | reflexivity
      | reflexivity | lra | apply binary64_pos; lra |].
    assert (H10 : axis_len x = 10%nat).
    { rewrite Hlen. unfold grid_length. rewrite quotient_3_0_3.
      rewrite (Zceil_eq 10); [reflexivity | lra]. }
    exists x. split; [exact Hx |]. split; [exact H10 |].
    split; [rewrite binary64_0_3; apply Zceil_eq; lra |].
    intros H. specialize (H 10%nat). rewrite H10 in H.
    assert (Hlt : (10 < 10)%nat); [| lia].
    apply H. rewrite binary64_0_3.
    replace (INR 10) with 10 by (simpl; lra). lra.
Qed.

(** A trace of one sample does not fit the mask of the default grid. *)
Lemma summarize_shape_counterexample :
  summarize one_sample HH.default = None /\
  ~ (exists y : ndarray unit float,
        summarize one_sample HH.default = Some y /\ axis_len y = 7%nat).
Proof.
  assert (H : summarize one_sample HH.default = None).
  { apply (summarize_mismatch _ _ 80 0.02 10); try reflexivity.
    rewrite grid_length_default. cbn [axis_len one_sample]. lia. }
  split; [exact H |]. intros (y & Hy & _). congruence.
Qed.

(** The trace with one spike, on the grid of the short run. *)
Lemma summarize_shape_witness :
  exists y : ndarray unit float,
    summarize one_spike short_run = Some y /\
    axis_len y = 7%nat /\
    well_shaped y.
Proof.
  apply (summarize_shape one_spike short_run 8 1 2);
    [reflexivity | reflexivity | reflexivity | lra |].
  symmetry. exact grid_length_short_run.
Defined.

(** A spike with a flat top is counted twice, although no sample is
    strictly above both its neighbours and a hand count that takes a flat
    top as one maximum finds one. *)
Lemma spike_count_counterexample :
  spike_count flat_top = 2%nat /\
  local_maxima (clip flat_top) = 0%nat /\
  flat_top_maxima false (clip flat_top) = 1%nat /\
  spike_count flat_top <> local_maxima (clip flat_top) /\
  spike_count flat_top <> flat_top_maxima false (clip flat_top).
Proof.
  rewrite clip_flat_top, spike_count_flat_top, local_maxima_flat_top,
    flat_top_maxima_flat_top.
  repeat split; lia.
Qed.

(** The trace with one spike has one local maximum. *)
Lemma spike_count_local_maxima_witness :
  spike_count (row one_spike tt) = local_maxima (clip (row one_spike tt)).
Proof.
  exact (proj2 (spike_count_local_maxima (row one_spike tt))
               one_spike_flat_only_in_valleys).
Defined.


(** Without noise amplitude, draws of 0 and draws of 1 give one trace. *)
Lemma voltage_trace_noiseless_deterministic_witness :
  voltage_trace noiseless HH.default (fun _ _ => 0)
  = voltage_trace noiseless HH.default (fun _ _ => 1).
Proof.
  apply (voltage_trace_noiseless_deterministic noiseless HH.default).
  intros []. reflexivity.
Defined.

(** After three iterations of the short run the gates of [midpoint] are in
    the unit interval and [tau_V] is positive. *)
Lemma gating_variables_bounded_witness :
  let s := short_run_state 3 in
  0 <= n s (tt, tt) <= 1 /\ 0 <= m s (tt, tt) <= 1 /\
  0 <= h s (tt, tt) <= 1 /\ 0 <= p s (tt, tt) <= 1 /\
  0 < tau_V (parameter midpoint 0) (parameter midpoint 1)
        (parameter midpoint 2) (parameter midpoint 3) s (tt, tt).
Proof.
  apply (gating_variables_bounded 8 1 2 (-70) 0
           (parameter midpoint 0) (parameter midpoint 1)
           (parameter midpoint 2) (parameter midpoint 3)
           (parameter midpoint 4) (parameter midpoint 5)
           (parameter midpoint 6) (parameter midpoint 7)
           (fun _ _ => 0) (grid 8 1) 3 (tt, tt)).
  - lra.
  - intros j. unfold parameter, midpoint. cbn [row nth]. lra.
  - intros j. unfold parameter, midpoint. cbn [row nth]. lra.
Defined.


(** A misspelled [durration=100] changes nothing: the duration stays 80. *)
Lemma init_constants_witness :
  HH.__init__ None {[ "durration" := 100 ]} = HH.__init__ None ∅ /\
  HH.constants (HH.__init__ None {[ "durration" := 100 ]}) !! "duration"
  = Some 80 /\
  HH.constants (HH.__init__ None {[ "durration" := 100 ]}) !! "durration"
  = None.
Proof.
  pose proof (init_constants None ∅ "durration" 100
                misspelled_not_a_constant) as H.
  cbv zeta in H.
  destruct H as (_ & _ & _ & _ & _ & _ & _ & Hsame & _).
  pose proof (init_constants None {[ "durration" := 100 ]} "durration" 100
                misspelled_not_a_constant) as H'.
  cbv zeta in H'.
  destruct H' as (_ & Hduration & _ & _ & _ & _ & Hnone & _ & _).
  split; [exact Hsame |]. split; [exact Hduration | exact Hnone].
Defined.

(** * Part III: further properties of the code *)

(** ** When the calls succeed *)

Lemma mapM_item_is_Some {A : Type} (x : ndarray A R) (indices : list nat)
    (l : list (A -> R)) (i : nat) :
  mapM (np.item x) indices = Some l -> In i indices -> (i < axis_len x)%nat.
Proof.
  revert l. induction indices as [| i' indices IH]; intros l Hl Hi;
    [destruct Hi |].
  simpl in Hl. destruct (np.item x i') as [f |] eqn:Hf; [| discriminate].
  simpl in Hl. destruct (mapM (np.item x) indices) as [l' |] eqn:Hl';
    [| discriminate].
  destruct Hi as [<- | Hi]; [| now apply (IH l')].
  unfold np.item in Hf. now destruct (decide (i' < axis_len x)%nat).
Qed.

Lemma unpack_theta_ge {B : Type} (theta : ndarray B R) :
  (8 <= axis_len theta)%nat ->
  mapM (np.item (np.expand_dims theta)) (seq 0 8)
  = Some (map (parameter theta) (seq 0 8)).
Proof.
  intros H. unfold np.item. cbn [seq map mapM np.expand_dims axis_len].
  repeat (destruct (decide _) as [_ | Hn]; [| exfalso; simpl in *; lia]).
  reflexivity.
Qed.

Lemma unpack_theta_lt {B : Type} (theta : ndarray B R) :
  (axis_len theta < 8)%nat ->
  mapM (np.item (np.expand_dims theta)) (seq 0 8) = None.
Proof.
  intros H. destruct (mapM _ _) as [l |] eqn:Hl; [| reflexivity].
  pose proof (mapM_item_is_Some _ _ _ 7%nat Hl ltac:(simpl; tauto)) as H7.
  simpl in H7. lia.
Qed.

Lemma stack_is_Some {B A : Type} (arrays : list (B -> A)) :
  is_Some (np.stack arrays) <-> (0 < length arrays)%nat.
Proof.
  destruct arrays; simpl; split; intros H; try lia.
  - now destruct H.
  - eauto.
Qed.

Lemma voltage_trace_is_Some {B : Type} (theta : ndarray B R)
    (constants : gmap string R) (randn : nat -> unit * B -> R) :
  is_Some (voltage_trace theta constants randn) <->
  exists T dt pad V_0 I : R,
    constants !! "duration" = Some T /\
    constants !! "time_step" = Some dt /\
    constants !! "padding" = Some pad /\
    constants !! "initial_voltage" = Some V_0 /\
    constants !! "current" = Some I /\
    (8 <= axis_len theta)%nat /\
    dt <> 0 /\
    0 < T / dt.
Proof.
  unfold voltage_trace. split.
  - intros Hsome.
    destruct (constants !! "duration") as [T |]; [| now destruct Hsome].
    destruct (constants !! "time_step") as [dt |]; [| now destruct Hsome].
    destruct (constants !! "padding") as [pad |]; [| now destruct Hsome].
    destruct (constants !! "initial_voltage") as [V_0 |];
      [| now destruct Hsome].
    destruct (constants !! "current") as [I |]; [| now destruct Hsome].
    cbn [mbind option_bind] in Hsome.
    exists T, dt, pad, V_0, I. do 5 (split; [reflexivity |]).
    destruct (le_lt_dec 8 (axis_len theta)) as [H8 | H8].
    2:{ rewrite (unpack_theta_lt _ H8) in Hsome. now destruct Hsome. }
    split; [exact H8 |].
    rewrite (unpack_theta_ge _ H8) in Hsome.
    cbn [mbind option_bind map seq] in Hsome.
    destruct (Req_dec_T dt 0) as [-> | Hne].
    { rewrite arange_zero_step in Hsome. now destruct Hsome. }
    split; [exact Hne |].
    rewrite (arange_grid _ _ Hne) in Hsome. cbn [mbind option_bind] in Hsome.
    apply grid_length_pos_iff.
    match type of Hsome with
    | is_Some (?s ≫= _) => assert (Hs : is_Some s) by (destruct s; [eauto | now destruct Hsome])
    end.
    apply stack_is_Some in Hs.
    now rewrite iterations_voltages_length, grid_length_eq in Hs.
  - intros (T & dt & pad & V_0 & I & -> & -> & -> & -> & -> & H8 & Hne & Hpos).
    cbn [mbind option_bind]. rewrite (unpack_theta_ge _ H8).
    cbn [mbind option_bind map seq]. rewrite (arange_grid _ _ Hne).
    cbn [mbind option_bind].
    match goal with
    | |- is_Some (?s ≫= _) => assert (Hs : is_Some s)
    end.
    { apply stack_is_Some.
      rewrite iterations_voltages_length, grid_length_eq.
      now apply grid_length_pos_iff. }
    destruct Hs as [x ->]. simpl. eauto.
Qed.

Lemma summarize_is_Some {B : Type} (x : ndarray B R)
    (constants : gmap string R) :
  is_Some (summarize x constants) <->
  exists T dt pad : R,
    constants !! "duration" = Some T /\
    constants !! "time_step" = Some dt /\
    constants !! "padding" = Some pad /\
    dt <> 0 /\
    axis_len x = grid_length T dt.
Proof.
  split.
  - intros Hsome.
    destruct (constants !! "duration") as [T |] eqn:HT;
      [| unfold summarize in Hsome; rewrite HT in Hsome; now destruct Hsome].
    destruct (constants !! "time_step") as [dt |] eqn:Hdt;
      [| unfold summarize in Hsome; rewrite HT, Hdt in Hsome;
         now destruct Hsome].
    destruct (constants !! "padding") as [pad |] eqn:Hpad;
      [| unfold summarize in Hsome; rewrite HT, Hdt, Hpad in Hsome;
         now destruct Hsome].
    exists T, dt, pad. do 3 (split; [reflexivity |]).
    destruct (decide (axis_len x = grid_length T dt)) as [Hlen | Hlen].
    + split; [| exact Hlen]. intros ->.
      unfold summarize in Hsome. rewrite HT, Hdt, Hpad in Hsome.
      cbn [mbind option_bind] in Hsome. rewrite arange_zero_step in Hsome.
      now destruct Hsome.
    + rewrite (summarize_mismatch x constants T dt pad) in Hsome by assumption.
      now destruct Hsome.
  - intros (T & dt & pad & HT & Hdt & Hpad & Hne & Hlen).
    rewrite (summarize_unfold x constants T dt pad) by assumption. eauto.
Qed.

(** X1.  [voltage_trace] returns a trace exactly when the constants hold
    the five names it reads, [theta] has at least 8 entries on its
    trailing axis, the time step is not 0 and the grid is not empty
    ([duration / time_step] is positive).  In every other case it raises:
    a missing name, a short [theta], a zero step, or nothing to stack. *)
Theorem voltage_trace_succeeds_iff {B : Type} (theta : ndarray B R)
    (constants : gmap string R) (randn : nat -> unit * B -> R) :
  is_Some (voltage_trace theta constants randn) <->
  exists T dt pad V_0 I : R,
    constants !! "duration" = Some T /\
    constants !! "time_step" = Some dt /\
    constants !! "padding" = Some pad /\
    constants !! "initial_voltage" = Some V_0 /\
    constants !! "current" = Some I /\
    (8 <= axis_len theta)%nat /\
    dt <> 0 /\
    0 < T / dt.
Proof. apply voltage_trace_is_Some. Qed.

(** X2.  [summarize] returns exactly when the constants hold [duration],
    [time_step] and [padding], the step is not 0, and the trace has as
    many samples as the grid has points; it never reads [initial_voltage]
    or [current]. *)
Theorem summarize_succeeds_iff {B : Type} (x : ndarray B R)
    (constants : gmap string R) :
  is_Some (summarize x constants) <->
  exists T dt pad : R,
    constants !! "duration" = Some T /\
    constants !! "time_step" = Some dt /\
    constants !! "padding" = Some pad /\
    dt <> 0 /\
    axis_len x = grid_length T dt.
Proof. apply summarize_is_Some. Qed.

(** ** Calls of an object that the constructor built *)

Lemma init_lookups (summary : option bool) (kwargs : gmap string R) :
  let constants := HH.constants (HH.__init__ summary kwargs) in
  constants !! "duration" = Some (HH.get kwargs "duration" 80) /\
  constants !! "time_step" = Some (HH.get kwargs "time_step" 0.02) /\
  constants !! "padding" = Some (HH.get kwargs "padding" 10) /\
  constants !! "initial_voltage"
    = Some (HH.get kwargs "initial_voltage" (-70)) /\
  constants !! "current"
    = Some (HH.get kwargs "current" (5e-4 / (PI * 7e-3 ^ 2))).
Proof. cbv zeta. rewrite !init_lookup. repeat split; reflexivity. Qed.

Lemma voltage_trace_axis_len {B : Type} (theta : ndarray B R)
    (constants : gmap string R) (randn : nat -> unit * B -> R)
    (T dt : R) (x : ndarray B R) :
  constants !! "duration" = Some T ->
  constants !! "time_step" = Some dt ->
  voltage_trace theta constants randn = Some x ->
  axis_len x = grid_length T dt /\ well_shaped x.
Proof.
  intros HT Hdt Hx.
  destruct (proj1 (voltage_trace_is_Some theta constants randn))
    as (T' & dt' & pad & V_0 & I & HT' & Hdt' & Hpad & HV & HI & H8 & Hne & _);
    [rewrite Hx; eauto |].
  assert (T' = T) by congruence. assert (dt' = dt) by congruence. subst T' dt'.
  unfold voltage_trace in Hx. rewrite HT, Hdt, Hpad, HV, HI in Hx.
  cbn [mbind option_bind] in Hx. rewrite (unpack_theta_ge _ H8) in Hx.
  cbn [mbind option_bind map seq] in Hx. rewrite (arange_grid _ _ Hne) in Hx.
  cbn [mbind option_bind] in Hx.
  set (s := iterations _ _ _ _ _ _ _ _ _ _ _ _ _ _ _) in Hx.
  assert (Hlen : length (voltages s) = grid_length T dt).
  { unfold s. now rewrite iterations_voltages_length, grid_length_eq. }
  destruct (voltages s) as [| v vs]; [discriminate |].
  simpl in Hx. injection Hx as <-. split; [exact Hlen |].
  intros b. simpl. now rewrite length_map.
Qed.

Lemma call_is_Some {B : Type} (summary : option bool)
    (kwargs : gmap string R) (theta : ndarray B R)
    (randn : nat -> unit * B -> R) :
  let T := HH.get kwargs "duration" 80 in
  let dt := HH.get kwargs "time_step" 0.02 in
  is_Some (HH.__call__ (HH.__init__ summary kwargs) theta randn) <->
  (8 <= axis_len theta)%nat /\ dt <> 0 /\ 0 < T / dt.
Proof.
  intros T dt. set (self := HH.__init__ summary kwargs).
  destruct (init_lookups summary kwargs) as (HT & Hdt & Hpad & HV & HI).
  fold self in HT, Hdt, Hpad, HV, HI. fold T in HT. fold dt in Hdt.
  unfold HH.__call__. split.
  - intros Hsome.
    destruct (voltage_trace theta (HH.constants self) randn) as [x |] eqn:Hx;
      [| now destruct Hsome].
    destruct (proj1 (voltage_trace_is_Some theta (HH.constants self) randn))
      as (T' & dt' & _ & _ & _ & HT' & Hdt' & _ & _ & _ & H8 & Hne & Hpos);
      [rewrite Hx; eauto |].
    assert (T' = T) by congruence. assert (dt' = dt) by congruence.
    subst T' dt'. auto.
  - intros (H8 & Hne & Hpos).
    destruct (proj2 (voltage_trace_is_Some theta (HH.constants self) randn))
      as [x Hx].
    { exists T, dt. do 3 eexists. eauto 10. }
    rewrite Hx. cbn [mbind option_bind].
    destruct (HH.summary self); [| eauto].
    destruct (voltage_trace_axis_len _ _ _ T dt x HT Hdt Hx) as [Hlen _].
    rewrite (summarize_unfold x _ T dt _ HT Hdt Hpad Hne Hlen).
    cbn [mbind option_bind]. eauto.
Qed.

(** X3.  A call of an object built by the constructor never fails for a
    missing constant, and [summarize] never fails on the trace that
    [voltage_trace] hands it: the call returns exactly when [theta] has at
    least 8 trailing entries, the time step is not 0 and
    [duration / time_step] is positive. *)
Theorem call_succeeds_iff {B : Type} (summary : option bool)
    (kwargs : gmap string R) (theta : ndarray B R)
    (randn : nat -> unit * B -> R) :
  let T := HH.get kwargs "duration" 80 in
  let dt := HH.get kwargs "time_step" 0.02 in
  is_Some (HH.__call__ (HH.__init__ summary kwargs) theta randn) <->
  (8 <= axis_len theta)%nat /\ dt <> 0 /\ 0 < T / dt.
Proof. apply call_is_Some. Qed.

(** X4.  What a call returns follows the [summary] flag: 7 numbers per
    parameter vector unless the object was built with [summary=False],
    and then the whole trace, one sample per grid point. *)
Theorem call_result {B : Type} (summary : option bool)
    (kwargs : gmap string R) (theta : ndarray B R)
    (randn : nat -> unit * B -> R) (out : HH.output B) :
  HH.__call__ (HH.__init__ summary kwargs) theta randn = Some out ->
  match out with
  | HH.Summary y =>
      summary <> Some false /\ axis_len y = 7%nat /\ well_shaped y
  | HH.Trace x =>
      summary = Some false /\
      axis_len x = grid_length (HH.get kwargs "duration" 80)
                     (HH.get kwargs "time_step" 0.02) /\
      well_shaped x
  end.
Proof.
  set (self := HH.__init__ summary kwargs).
  destruct (init_lookups summary kwargs) as (HT & Hdt & Hpad & HV & HI).
  fold self in HT, Hdt, Hpad, HV, HI.
  unfold HH.__call__.
  destruct (voltage_trace theta (HH.constants self) randn) as [x |] eqn:Hx;
    [| discriminate].
  cbn [mbind option_bind].
  destruct (voltage_trace_axis_len _ _ _ _ _ x HT Hdt Hx) as [Hlen Hshape].
  destruct summary as [[|] |]; cbn [HH.summary self HH.__init__].
  - destruct (summarize x _) as [y |] eqn:Hy; [| discriminate].
    cbn [mbind option_bind]. intros [= <-].
    destruct (proj1 (summarize_is_Some x (HH.constants self)))
      as (T & dt & pad & HT' & Hdt' & Hpad' & Hne & Hlen'); [rewrite Hy; eauto |].
    rewrite (summarize_unfold x _ T dt pad) in Hy by assumption.
    injection Hy as <-. repeat split. discriminate.
  - intros [= <-]. auto.
  - destruct (summarize x _) as [y |] eqn:Hy; [| discriminate].
    cbn [mbind option_bind]. intros [= <-].
    destruct (proj1 (summarize_is_Some x (HH.constants self)))
      as (T & dt & pad & HT' & Hdt' & Hpad' & Hne & Hlen'); [rewrite Hy; eauto |].
    rewrite (summarize_unfold x _ T dt pad) in Hy by assumption.
    injection Hy as <-. repeat split. discriminate.
Qed.

(** X5.  Handing the constants of an object back to the constructor as
    keyword arguments gives the same constants again, whatever the
    keyword arguments of the first object were. *)
Theorem init_round_trip (summary summary' : option bool)
    (kwargs : gmap string R) :
  HH.constants
    (HH.__init__ summary' (HH.constants (HH.__init__ summary kwargs)))
  = HH.constants (HH.__init__ summary kwargs).
Proof.
  apply map_eq. intros k. rewrite !init_lookup.
  destruct (HH.default !! k) as [v |] eqn:Hk; [| reflexivity].
  cbn [fmap option_fmap option_map]. unfold HH.get at 1.
  rewrite init_lookup, Hk. reflexivity.
Qed.

(** ** The trace and the loop *)

(** What a successful call of [voltage_trace] has computed. *)
Lemma voltage_trace_inv {B : Type} (theta : ndarray B R)
    (constants : gmap string R) (randn : nat -> unit * B -> R)
    (x : ndarray B R) :
  voltage_trace theta constants randn = Some x ->
  exists T dt pad V_0 I : R,
    constants !! "duration" = Some T /\
    constants !! "time_step" = Some dt /\
    constants !! "padding" = Some pad /\
    constants !! "initial_voltage" = Some V_0 /\
    constants !! "current" = Some I /\
    dt <> 0 /\
    axis_len x = grid_length T dt /\
    forall b : B,
      row x b
      = map (fun v : unit * B -> R => v (tt, b))
          (voltages (iterations T dt pad V_0 I
             (parameter theta 0) (parameter theta 1) (parameter theta 2)
             (parameter theta 3) (parameter theta 4) (parameter theta 5)
             (parameter theta 6) (parameter theta 7) randn (grid T dt))).
Proof.
  intros Hx.
  destruct (proj1 (voltage_trace_is_Some theta constants randn))
    as (T & dt & pad & V_0 & I & HT & Hdt & Hpad & HV & HI & H8 & Hne & _);
    [rewrite Hx; eauto |].
  exists T, dt, pad, V_0, I. do 6 (split; [assumption |]).
  unfold voltage_trace in Hx. rewrite HT, Hdt, Hpad, HV, HI in Hx.
  cbn [mbind option_bind] in Hx. rewrite (unpack_theta_ge _ H8) in Hx.
  cbn [mbind option_bind map seq] in Hx. rewrite (arange_grid _ _ Hne) in Hx.
  cbn [mbind option_bind] in Hx.
  set (s := iterations _ _ _ _ _ _ _ _ _ _ _ _ _ _ _) in *.
  assert (Hlen : length (voltages s) = grid_length T dt).
  { unfold s. now rewrite iterations_voltages_length, grid_length_eq. }
  destruct (voltages s) as [| v vs]; [discriminate |].
  simpl in Hx. injection Hx as <-. split; [exact Hlen |]. reflexivity.
Qed.

Lemma trace_sample {B : Type} (theta : ndarray B R)
    (constants : gmap string R) (randn : nat -> unit * B -> R)
    (T dt pad V_0 I : R) (x : ndarray B R) (b : B) (k : nat) :
  constants !! "duration" = Some T ->
  constants !! "time_step" = Some dt ->
  constants !! "padding" = Some pad ->
  constants !! "initial_voltage" = Some V_0 ->
  constants !! "current" = Some I ->
  voltage_trace theta constants randn = Some x ->
  (k < axis_len x)%nat ->
  nth k (row x b) 0
  = V (state_after T dt pad V_0 I
         (parameter theta 0) (parameter theta 1) (parameter theta 2)
         (parameter theta 3) (parameter theta 4) (parameter theta 5)
         (parameter theta 6) (parameter theta 7) randn (grid T dt) (S k))
      (tt, b).
Proof.
  intros HT Hdt Hpad HV HI Hx Hk.
  destruct (voltage_trace_inv _ _ _ _ Hx)
    as (T' & dt' & pad' & V_0' & I' & HT' & Hdt' & Hpad' & HV' & HI' & Hne
        & Hlen & Hrow).
  assert (T' = T) by congruence. assert (dt' = dt) by congruence.
  assert (pad' = pad) by congruence. assert (V_0' = V_0) by congruence.
  assert (I' = I) by congruence. subst T' dt' pad' V_0' I'.
  rewrite Hrow. set (f := fun v : unit * B -> R => v (tt, b)).
  rewrite (nth_indep _ 0 (f (fun _ => 0))).
  2:{ rewrite length_map, iterations_voltages_length, grid_length_eq. lia. }
  rewrite map_nth.
  rewrite voltages_nth by (rewrite grid_length_eq; lia).
  reflexivity.
Qed.

(** C1.  Every iteration of the loop that [voltage_trace] runs over its
    grid advances the state by the exponential-update rule.  With [s] the
    state of the loop after [k] iterations and [s'] its state after one
    more: the body first moves [V] to
    [V_inf + (V - V_inf) * exp (- dt / tau_V)], then sets [V_rel] to the new
    [V - V_t], then moves [n], [m], [h] by the same rule with their rate
    functions at the new [V_rel], and [p] by the same rule with [p_inf] and
    [tau_p] at the new [V] itself; the new [V] is what the loop appends,
    and sample [k] of the returned trace. *)
Theorem loop_body_exponential_update {B : Type} (theta : ndarray B R)
    (constants : gmap string R) (randn : nat -> unit * B -> R)
    (T dt pad V_0 I : R) (x : ndarray B R) (b : B) (k : nat) :
  constants !! "duration" = Some T ->
  constants !! "time_step" = Some dt ->
  constants !! "padding" = Some pad ->
  constants !! "initial_voltage" = Some V_0 ->
  constants !! "current" = Some I ->
  voltage_trace theta constants randn = Some x ->
  (k < axis_len x)%nat ->
  let g_Na := parameter theta 0 in
  let g_K := parameter theta 1 in
  let g_M := parameter theta 2 in
  let g_leak := parameter theta 3 in
  let tau_max := parameter theta 4 in
  let V_t := parameter theta 5 in
  let sigma := parameter theta 6 in
  let E_leak := parameter theta 7 in
  let loop :=
    iterations T dt pad V_0 I g_Na g_K g_M g_leak tau_max V_t sigma E_leak
      randn in
  let timesteps := grid T dt in
  let t := nth k timesteps 0 in
  let s := loop (firstn k timesteps) in
  let s' := loop (firstn (S k) timesteps) in
  let j := (tt, b) in
  np.arange T dt = Some timesteps /\
  s' = step T dt pad I g_Na g_K g_M g_leak tau_max V_t sigma E_leak randn
         s (k, t) /\
  V s' j
  = exp_update dt
      (V_inf T dt pad I g_Na g_K g_M g_leak sigma E_leak randn k t s j)
      (V s j) (tau_V g_Na g_K g_M g_leak s j) /\
  V_rel s' j = V s' j - V_t j /\
  n s' j = exp_update dt (n_inf (V_rel s' j)) (n s j) (tau_n (V_rel s' j)) /\
  m s' j = exp_update dt (m_inf (V_rel s' j)) (m s j) (tau_m (V_rel s' j)) /\
  h s' j = exp_update dt (h_inf (V_rel s' j)) (h s j) (tau_h (V_rel s' j)) /\
  p s' j
  = exp_update dt (p_inf (V s' j)) (p s j) (tau_p (tau_max j) (V s' j)) /\
  voltages s' = voltages s ++ [V s'] /\
  nth k (voltages (loop timesteps)) (fun _ => 0) = V s' /\
  nth k (row x b) 0 = V s' j.
Proof.
  intros HT Hdt Hpad HV HI Hx Hk g_Na g_K g_M g_leak tau_max V_t sigma E_leak
    loop timesteps t s s' j.
  destruct (voltage_trace_inv _ _ _ _ Hx)
    as (T' & dt' & _ & _ & _ & HT' & Hdt' & _ & _ & _ & Hne & Hlen & _).
  assert (T' = T) by congruence. assert (dt' = dt) by congruence.
  subst T' dt'.
  assert (Hk' : (k < length timesteps)%nat).
  { unfold timesteps. rewrite grid_length_eq. lia. }
  pose proof (state_after_update T dt pad V_0 I g_Na g_K g_M g_leak tau_max
                V_t sigma E_leak randn timesteps k j Hk') as Hbody.
  cbv zeta in Hbody. rewrite !state_after_prefix in Hbody.
  destruct Hbody as (Hstep & HVs & HVrel & Hn & Hm & Hh & Hp & Hvs).
  split; [now apply arange_grid |].
  do 8 (split; [assumption |]).
  split.
  - unfold loop. rewrite (voltages_nth _ _ _ _ _ _ _ _ _ _ _ _ _ _ _ _ _ Hk').
    now rewrite state_after_prefix.
  - unfold s', loop. rewrite <- state_after_prefix.
    now apply (trace_sample theta constants).
Qed.

(** X6.  Sample number [k] of the trace that [voltage_trace] returns is
    the voltage after iteration number [k] of the loop, the one for the
    grid time [k * dt]: the trace starts with the voltage after the first
    update, the initial voltage itself is not part of it. *)
Theorem trace_samples_follow_loop {B : Type} (theta : ndarray B R)
    (constants : gmap string R) (randn : nat -> unit * B -> R)
    (T dt pad V_0 I : R) (x : ndarray B R) (b : B) (k : nat) :
  constants !! "duration" = Some T ->
  constants !! "time_step" = Some dt ->
  constants !! "padding" = Some pad ->
  constants !! "initial_voltage" = Some V_0 ->
  constants !! "current" = Some I ->
  voltage_trace theta constants randn = Some x ->
  (k < axis_len x)%nat ->
  let state :=
    state_after T dt pad V_0 I
      (parameter theta 0) (parameter theta 1) (parameter theta 2)
      (parameter theta 3) (parameter theta 4) (parameter theta 5)
      (parameter theta 6) (parameter theta 7) randn (grid T dt) in
  nth k (row x b) 0 = V (state (S k)) (tt, b) /\
  nth k (grid T dt) 0 = INR k * dt /\
  V (state O) (tt, b) = V_0 /\
  nth 0 (row x b) 0
  = exp_update dt
      (V_inf T dt pad I (parameter theta 0) (parameter theta 1)
         (parameter theta 2) (parameter theta 3) (parameter theta 6)
         (parameter theta 7) randn 0 0 (state O) (tt, b))
      V_0
      (tau_V (parameter theta 0) (parameter theta 1) (parameter theta 2)
         (parameter theta 3) (state O) (tt, b)).
Proof.
  intros HT Hdt Hpad HV HI Hx Hk state.
  destruct (voltage_trace_inv _ _ _ _ Hx)
    as (T' & dt' & _ & _ & _ & HT' & Hdt' & _ & _ & _ & Hne & Hlen & _).
  assert (T' = T) by congruence. assert (dt' = dt) by congruence.
  subst T' dt'.
  split; [now apply (trace_sample theta constants) |].
  split; [apply grid_nth; lia |]. split; [reflexivity |].
  rewrite (trace_sample theta constants randn T dt pad V_0 I) by (auto; lia).
  fold state. unfold state at 1.
  rewrite state_after_succ by (rewrite grid_length_eq; lia).
  rewrite grid_nth by lia. cbn [INR]. rewrite Rmult_0_l.
  reflexivity.
Qed.

(** ** Stability of the update *)

Lemma exp_update_between (dt target current tau : R) :
  0 < dt -> 0 < tau ->
  Rmin target current <= exp_update dt target current tau
                      <= Rmax target current.
Proof.
  intros Hdt Htau. unfold exp_update.
  pose proof (decay_in_unit dt tau Hdt Htau) as He.
  set (e := exp (- dt / tau)) in *.
  unfold Rmin, Rmax. destruct (Rle_dec target current); split; nra.
Qed.

Lemma weighted_average_between (w1 w2 w3 w4 e1 e2 e3 e4 c a lo hi : R) :
  0 < w1 -> 0 < w2 -> 0 < w3 -> 0 < w4 ->
  0 <= a -> - (a * w4) <= c <= a * w4 ->
  lo + a <= e1 <= hi - a -> lo + a <= e2 <= hi - a ->
  lo + a <= e3 <= hi - a -> lo + a <= e4 <= hi - a ->
  lo <= (e1 * w1 + e2 * w2 + e3 * w3 + e4 * w4 + c) / (w1 + w2 + w3 + w4)
     <= hi.
Proof.
  intros H1 H2 H3 H4 Ha Hc He1 He2 He3 He4.
  set (G := w1 + w2 + w3 + w4). assert (HG : 0 < G) by (unfold G; lra).
  assert (Hlo : lo * G <= e1 * w1 + e2 * w2 + e3 * w3 + e4 * w4 + c)
    by (unfold G; nra).
  assert (Hhi : e1 * w1 + e2 * w2 + e3 * w3 + e4 * w4 + c <= hi * G)
    by (unfold G; nra).
  split.
  - apply Rmult_le_reg_r with G; [exact HG |].
    unfold Rdiv. rewrite Rmult_assoc, Rinv_l by lra. lra.
  - apply Rmult_le_reg_r with G; [exact HG |].
    unfold Rdiv. rewrite Rmult_assoc, Rinv_l by lra. lra.
Qed.

Section Dynamics.

Context {J : Type}.
Variables (T dt pad V_0 I : R).
Variables (g_Na g_K g_M g_leak tau_max V_t sigma E_leak : J -> R).
Variable randn : nat -> J -> R.

Hypothesis dt_pos : 0 < dt.
Hypothesis conductances_pos :
  forall i : J, 0 < g_Na i /\ 0 < g_K i /\ 0 < g_M i /\ 0 < g_leak i.
Hypothesis tau_max_pos : forall i : J, 0 < tau_max i.

Local Abbreviation run :=
  (state_after T dt pad V_0 I g_Na g_K g_M g_leak tau_max V_t sigma E_leak
     randn).

Lemma run_gates_in_unit (timesteps : list R) (k : nat) :
  gates_in_unit (run timesteps k).
Proof.
  unfold state_after. apply fold_gates_in_unit; auto.
  apply init_gates_in_unit.
Qed.

Lemma run_tau_V_pos (timesteps : list R) (k : nat) (j : J) :
  0 < tau_V g_Na g_K g_M g_leak (run timesteps k) j.
Proof.
  destruct (conductances_pos j) as (? & ? & ? & ?).
  apply tau_V_pos; auto. apply run_gates_in_unit.
Qed.

(** X7.  With positive conductances and [tau_max], an iteration never
    overshoots, whatever the size of the time step [dt > 0]: the new [V]
    lies between the old [V] and the target [V_inf], and each of [n],
    [m], [h], [p] between its old value and its steady state at the new
    voltage. *)
Theorem update_without_overshoot (timesteps : list R) (k : nat) (j : J) :
  (k < length timesteps)%nat ->
  let s := state_after T dt pad V_0 I g_Na g_K g_M g_leak tau_max V_t sigma
             E_leak randn timesteps k in
  let s' := state_after T dt pad V_0 I g_Na g_K g_M g_leak tau_max V_t sigma
              E_leak randn timesteps (S k) in
  let V_inf_k :=
    V_inf T dt pad I g_Na g_K g_M g_leak sigma E_leak randn k
      (nth k timesteps 0) s j in
  Rmin V_inf_k (V s j) <= V s' j <= Rmax V_inf_k (V s j) /\
  Rmin (n_inf (V_rel s' j)) (n s j) <= n s' j
    <= Rmax (n_inf (V_rel s' j)) (n s j) /\
  Rmin (m_inf (V_rel s' j)) (m s j) <= m s' j
    <= Rmax (m_inf (V_rel s' j)) (m s j) /\
  Rmin (h_inf (V_rel s' j)) (h s j) <= h s' j
    <= Rmax (h_inf (V_rel s' j)) (h s j) /\
  Rmin (p_inf (V s' j)) (p s j) <= p s' j <= Rmax (p_inf (V s' j)) (p s j).
Proof.
  intros Hk s s' V_inf_k. subst s' V_inf_k.
  rewrite (state_after_succ _ _ _ _ _ _ _ _ _ _ _ _ _ _ _ _ Hk). fold s.
  cbn [step V V_rel n m h p].
  pose proof (run_tau_V_pos timesteps k j) as Htau. fold s in Htau.
  repeat split;
    first [ apply (exp_update_between dt _ _ _ dt_pos); auto with kinetics
          | apply (exp_update_between dt _ _ _ dt_pos Htau) ].
Qed.

(** X8.  With positive conductances, a positive [tau_max] and a positive
    time step, and without noise amplitude ([sigma = 0]), the voltage
    stays in a fixed range: if the initial voltage and the reversal
    potentials [E_K], [E_Na], [E_leak], widened by [|I| / g_leak] for the
    injected current, lie between [lo] and [hi], so does the voltage
    after every iteration. *)
Theorem noiseless_voltage_bounded (timesteps : list R) (k : nat) (j : J)
    (lo hi : R) :
  sigma j = 0 ->
  lo <= V_0 <= hi ->
  lo <= E_K - Rabs I / g_leak j ->
  lo <= E_leak j - Rabs I / g_leak j ->
  E_Na + Rabs I / g_leak j <= hi ->
  E_leak j + Rabs I / g_leak j <= hi ->
  lo <= V (state_after T dt pad V_0 I g_Na g_K g_M g_leak tau_max V_t sigma
             E_leak randn timesteps k) j <= hi.
Proof.
  intros Hsigma HV0 HloK Hlol HhiNa Hhil.
  induction k as [| k IH]; [exact HV0 |].
  destruct (le_lt_dec (length timesteps) k) as [Hge | Hlt].
  { unfold state_after in *.
    rewrite firstn_all2 in * by (rewrite enumerate_length; lia). exact IH. }
  rewrite (state_after_succ _ _ _ _ _ _ _ _ _ _ _ _ _ _ _ _ Hlt).
  set (s := run timesteps k) in *. cbn [step V].
  pose proof (run_tau_V_pos timesteps k j) as Htau. fold s in Htau.
  set (t := nth k timesteps 0).
  assert (Hinf : lo <= V_inf T dt pad I g_Na g_K g_M g_leak sigma E_leak
                         randn k t s j <= hi).
  { destruct (conductances_pos j) as (HNa & HK & HM & Hl).
    destruct (run_gates_in_unit timesteps k j) as (Hn & Hm & Hh & Hp).
    fold s in Hn, Hm, Hh, Hp.
    assert (Hw1 : 0 < g_Na j * m s j ^ 3 * h s j).
    { apply Rmult_lt_0_compat; [apply Rmult_lt_0_compat |]; try lra.
      apply pow_lt; lra. }
    assert (Hw2 : 0 < g_K j * n s j ^ 4).
    { apply Rmult_lt_0_compat; [lra | apply pow_lt; lra]. }
    assert (Hw3 : 0 < g_M j * p s j) by (apply Rmult_lt_0_compat; lra).
    set (a := Rabs I / g_leak j) in *.
    assert (Ha : 0 <= a).
    { unfold a. apply Rmult_le_pos; [apply Rabs_pos |].
      left. now apply Rinv_0_lt_compat. }
    assert (Haw : a * g_leak j = Rabs I) by (unfold a; field; lra).
    assert (Hc : - (a * g_leak j) <= I * stimulus T pad t <= a * g_leak j).
    { rewrite Haw. unfold stimulus.
      destruct (Rleb pad t && Rltb t (T - pad));
        unfold Rabs; destruct (Rcase_abs I); lra. }
    unfold E_K, E_Na in *.
    pose proof (weighted_average_between
                  (g_Na j * m s j ^ 3 * h s j) (g_K j * n s j ^ 4)
                  (g_M j * p s j) (g_leak j)
                  53 (-107) (-107) (E_leak j) (I * stimulus T pad t) a lo hi
                  Hw1 Hw2 Hw3 Hl Ha Hc) as Hbound.
    assert (Hsq : 0 < sqrt dt) by (apply sqrt_lt_R0; lra).
    unfold V_inf, tau_V, C, E_Na, E_K. rewrite Hsigma.
    match goal with
    | |- lo <= ?e <= hi =>
        replace e with
          ((53 * (g_Na j * m s j ^ 3 * h s j) + -107 * (g_K j * n s j ^ 4)
            + -107 * (g_M j * p s j) + E_leak j * g_leak j
            + I * stimulus T pad t)
           / (g_Na j * m s j ^ 3 * h s j + g_K j * n s j ^ 4
              + g_M j * p s j + g_leak j))
          by (field; lra)
    end.
    apply Hbound; lra. }
  set (target := V_inf T dt pad I g_Na g_K g_M g_leak sigma E_leak randn
                   k t s j) in *.
  pose proof (exp_update_between dt target (V s j) _ dt_pos Htau) as Hbetween.
  unfold exp_update in Hbetween.
  unfold Rmin, Rmax in Hbetween. destruct (Rle_dec target (V s j)); lra.
Qed.

End Dynamics.

(** ** What the injected current can reach *)

Section Onset.

Context {J : Type}.
Variables (T dt pad V_0 I I' : R).
Variables (g_Na g_K g_M g_leak tau_max V_t sigma E_leak : J -> R).
Variable randn : nat -> J -> R.

Lemma step_before_onset (s : State) (i : nat) (t : R) :
  t < pad ->
  step T dt pad I g_Na g_K g_M g_leak tau_max V_t sigma E_leak randn s (i, t)
  = step T dt pad I' g_Na g_K g_M g_leak tau_max V_t sigma E_leak randn
      s (i, t).
Proof.
  intros Ht.
  assert (Hstim : stimulus T pad t = 0).
  { unfold stimulus.
    replace (Rleb pad t) with false by (symmetry; apply Rleb_false; lra).
    reflexivity. }
  assert (HV : V_inf T dt pad I g_Na g_K g_M g_leak sigma E_leak randn i t s
               = V_inf T dt pad I' g_Na g_K g_M g_leak sigma E_leak randn
                   i t s).
  { apply functional_extensionality. intros j. unfold V_inf.
    rewrite Hstim, !Rmult_0_r. reflexivity. }
  unfold step. now rewrite HV.
Qed.

Lemma state_before_onset (timesteps : list R) (k : nat) :
  (forall i : nat, (i < k)%nat -> (i < length timesteps)%nat ->
                   nth i timesteps 0 < pad) ->
  state_after T dt pad V_0 I g_Na g_K g_M g_leak tau_max V_t sigma E_leak
    randn timesteps k
  = state_after T dt pad V_0 I' g_Na g_K g_M g_leak tau_max V_t sigma E_leak
      randn timesteps k.
Proof.
  induction k as [| k IH]; intros Hbefore; [reflexivity |].
  destruct (le_lt_dec (length timesteps) k) as [Hge | Hlt].
  - unfold state_after in *.
    rewrite !(firstn_all2 (n := S k)) by (rewrite enumerate_length; lia).
    rewrite !(firstn_all2 (n := k)) in IH by (rewrite enumerate_length; lia).
    apply IH. intros i Hi. apply Hbefore. lia.
  - rewrite !state_after_succ by exact Hlt.
    rewrite IH by (intros i Hi; apply Hbefore; lia).
    apply step_before_onset. apply Hbefore; lia.
Qed.

End Onset.

Lemma grid_before (T dt pad : R) (k i : nat) :
  0 < dt -> INR k * dt < pad -> (i <= k)%nat ->
  (i < grid_length T dt)%nat -> nth i (grid T dt) 0 < pad.
Proof.
  intros Hdt Hk Hi Hlen. rewrite grid_nth by exact Hlen.
  apply le_INR in Hi. nra.
Qed.

(** The samples up to the stimulus onset are the same for two currents. *)
Lemma trace_before_onset {B : Type} (theta : ndarray B R)
    (constants : gmap string R) (randn : nat -> unit * B -> R)
    (dt pad I' : R) (x x' : ndarray B R) (b : B) (k : nat) :
  constants !! "time_step" = Some dt ->
  constants !! "padding" = Some pad ->
  0 < dt ->
  voltage_trace theta constants randn = Some x ->
  voltage_trace theta (<["current" := I']> constants) randn = Some x' ->
  (k < axis_len x)%nat ->
  INR k * dt < pad ->
  nth k (row x b) 0 = nth k (row x' b) 0.
Proof.
  intros Hdt Hpad Hpos Hx Hx' Hk Hbefore.
  destruct (voltage_trace_inv _ _ _ _ Hx)
    as (T & dt0 & pad0 & V_0 & I & HT & Hdt0 & Hpad0 & HV & HI & Hne & Hlen & _).
  assert (dt0 = dt) by congruence. assert (pad0 = pad) by congruence.
  subst dt0 pad0.
  destruct (voltage_trace_inv _ _ _ _ Hx')
    as (T1 & dt1 & _ & _ & _ & HT1 & Hdt1 & _ & _ & _ & _ & Hlen' & _).
  rewrite lookup_insert_ne in HT1, Hdt1 by discriminate.
  assert (T1 = T) by congruence. assert (dt1 = dt) by congruence.
  subst T1 dt1.
  rewrite (trace_sample theta constants randn T dt pad V_0 I x) by auto.
  rewrite (trace_sample theta (<["current" := I']> constants) randn
             T dt pad V_0 I' x');
    try (rewrite lookup_insert_ne by discriminate; assumption);
    [| apply lookup_insert_eq | exact Hx' | lia].
  f_equal. apply state_before_onset.
  intros i Hi Hi'. rewrite grid_length_eq in Hi'.
  apply (grid_before T dt pad k i); auto; lia.
Qed.


Lemma select_agree {A : Type} (mask : list bool) (a a' : list A) (d : A) :
  length a = length mask -> length a' = length mask ->
  (forall k : nat, (k < length mask)%nat -> nth k mask false = true ->
                   nth k a d = nth k a' d) ->
  np.select mask a = np.select mask a'.
Proof.
  revert a a'. induction mask as [| c mask IH]; intros a a' Ha Ha' Hagree.
  - now destruct a, a'.
  - destruct a as [| v a]; [discriminate |].
    destruct a' as [| v' a']; [discriminate |].
    cbn [np.select].
    assert (Htail : np.select mask a = np.select mask a').
    { apply IH; [simpl in *; lia | simpl in *; lia |].
      intros k Hk Hc. apply (Hagree (S k)); [simpl; lia | exact Hc]. }
    destruct c; [| exact Htail].
    rewrite Htail. f_equal. apply (Hagree O); [simpl; lia | reflexivity].
Qed.

Lemma rest_statistics_agree {B : Type} (theta : ndarray B R)
    (constants : gmap string R) (randn : nat -> unit * B -> R)
    (T dt pad I' : R) (x x' : ndarray B R) (y y' : ndarray B float) (b : B) :
  constants !! "duration" = Some T ->
  constants !! "time_step" = Some dt ->
  constants !! "padding" = Some pad ->
  0 < dt ->
  voltage_trace theta constants randn = Some x ->
  voltage_trace theta (<["current" := I']> constants) randn = Some x' ->
  summarize x constants = Some y ->
  summarize x' (<["current" := I']> constants) = Some y' ->
  nth 1 (row y b) NaN = nth 1 (row y' b) NaN /\
  nth 2 (row y b) NaN = nth 2 (row y' b) NaN.
Proof.
  intros HT Hdt Hpad Hpos Hx Hx' Hy Hy'.
  assert (HT' : <["current" := I']> constants !! "duration" = Some T)
    by (rewrite lookup_insert_ne by discriminate; exact HT).
  assert (Hdt' : <["current" := I']> constants !! "time_step" = Some dt)
    by (rewrite lookup_insert_ne by discriminate; exact Hdt).
  assert (Hpad' : <["current" := I']> constants !! "padding" = Some pad)
    by (rewrite lookup_insert_ne by discriminate; exact Hpad).
  destruct (voltage_trace_axis_len _ _ _ T dt x HT Hdt Hx) as [Hlen Hshape].
  destruct (voltage_trace_axis_len _ _ _ T dt x' HT' Hdt' Hx')
    as [Hlen' Hshape'].
  rewrite (summarize_unfold x _ T dt pad) in Hy by (auto; lra).
  rewrite (summarize_unfold x' _ T dt pad) in Hy' by (auto; lra).
  injection Hy as <-. injection Hy' as <-. cbn [row nth].
  assert (Hrest :
    np.select (map (fun t => Rleb (pad / 2) t && Rltb t pad) (grid T dt))
              (row x b)
    = np.select (map (fun t => Rleb (pad / 2) t && Rltb t pad) (grid T dt))
                (row x' b)).
  { apply (select_agree _ _ _ 0).
    - rewrite length_map, grid_length_eq, Hshape. exact Hlen.
    - rewrite length_map, grid_length_eq, Hshape'. exact Hlen'.
    - rewrite length_map, grid_length_eq. intros k Hk Hmask.
      apply (trace_before_onset theta constants randn dt pad I' x x' b k);
        auto; [lia |].
      set (f := fun t => Rleb (pad / 2) t && Rltb t pad) in Hmask.
      rewrite (nth_indep _ false (f 0)) in Hmask
        by (rewrite length_map, grid_length_eq; exact Hk).
      rewrite map_nth, grid_nth in Hmask by exact Hk.
      apply andb_prop in Hmask. destruct Hmask as [_ Hlt].
      now apply Rltb_true in Hlt. }
  rewrite Hrest. split; reflexivity.
Qed.

Lemma init_insert_current (summary : option bool) (kwargs : gmap string R)
    (I' : R) :
  HH.constants (HH.__init__ summary (<["current" := I']> kwargs))
  = <["current" := I']> (HH.constants (HH.__init__ summary kwargs)).
Proof.
  apply map_eq. intros key. rewrite init_lookup.
  destruct (decide (key = "current")) as [-> | Hkey].
  - rewrite !lookup_insert_eq. cbn [fmap option_fmap option_map].
    change (HH.default !! "current")
      with (Some (5e-4 / (PI * 7e-3 ^ 2))).
    cbn [option_map]. unfold HH.get. now rewrite lookup_insert_eq.
  - rewrite lookup_insert_ne by congruence. rewrite init_lookup.
    unfold HH.get. rewrite lookup_insert_ne by congruence. reflexivity.
Qed.

(** X10.  The resting statistics do not depend on the injected current:
    two objects that differ only in [current] (with a positive time step),
    called on the same [theta] with the same random draws, report the same
    resting mean and the same resting standard deviation. *)
Theorem resting_statistics_ignore_current {B : Type}
    (summary : option bool) (kwargs : gmap string R) (I' : R)
    (theta : ndarray B R) (randn : nat -> unit * B -> R)
    (y y' : ndarray B float) (b : B) :
  0 < HH.get kwargs "time_step" 0.02 ->
  HH.__call__ (HH.__init__ summary kwargs) theta randn
  = Some (HH.Summary y) ->
  HH.__call__ (HH.__init__ summary (<["current" := I']> kwargs)) theta randn
  = Some (HH.Summary y') ->
  nth 1 (row y b) NaN = nth 1 (row y' b) NaN /\
  nth 2 (row y b) NaN = nth 2 (row y' b) NaN.
Proof.
  intros Hpos Hy Hy'.
  destruct (init_lookups summary kwargs) as (HT & Hdt & Hpad & _ & _).
  unfold HH.__call__ in Hy, Hy'.
  rewrite init_insert_current in Hy'.
  change (HH.summary (HH.__init__ summary (<["current" := I']> kwargs)))
    with (HH.summary (HH.__init__ summary kwargs)) in Hy'.
  revert HT Hdt Hpad Hy Hy'.
  generalize (HH.summary (HH.__init__ summary kwargs)).
  generalize (HH.constants (HH.__init__ summary kwargs)).
  intros constants flag HT Hdt Hpad Hy Hy'.
  destruct (voltage_trace theta constants randn) as [x |] eqn:Hx;
    [| discriminate].
  destruct (voltage_trace theta (<["current" := I']> constants) randn)
    as [x' |] eqn:Hx'; [| discriminate].
  cbn [mbind option_bind] in Hy, Hy'.
  destruct flag; [| discriminate].
  destruct (summarize x constants) as [z |] eqn:Hz; [| discriminate].
  destruct (summarize x' _) as [z' |] eqn:Hz'; [| discriminate].
  cbn [mbind option_bind] in Hy, Hy'.
  injection Hy as <-. injection Hy' as <-.
  exact (rest_statistics_agree theta constants randn _ _ _ I' x x' z z' b
           HT Hdt Hpad Hpos Hx Hx' Hz Hz').
Qed.

(** ** Batch elements do not interact *)

Section Locality.

Context {J1 J2 : Type}.
Variables (T dt pad V_0 I : R).
Variables (g_Na1 g_K1 g_M1 g_leak1 tau_max1 V_t1 sigma1 E_leak1 : J1 -> R).
Variables (g_Na2 g_K2 g_M2 g_leak2 tau_max2 V_t2 sigma2 E_leak2 : J2 -> R).
Variables (randn1 : nat -> J1 -> R) (randn2 : nat -> J2 -> R).
Variables (j1 : J1) (j2 : J2).

Hypothesis same_parameters :
  g_Na1 j1 = g_Na2 j2 /\ g_K1 j1 = g_K2 j2 /\ g_M1 j1 = g_M2 j2 /\
  g_leak1 j1 = g_leak2 j2 /\ tau_max1 j1 = tau_max2 j2 /\
  V_t1 j1 = V_t2 j2 /\ sigma1 j1 = sigma2 j2 /\ E_leak1 j1 = E_leak2 j2.
Hypothesis same_draws : forall i : nat, randn1 i j1 = randn2 i j2.

(** The two states hold the same numbers at [j1] and at [j2]. *)
Let agree (s1 : @State J1) (s2 : @State J2) : Prop :=
  V s1 j1 = V s2 j2 /\ V_rel s1 j1 = V_rel s2 j2 /\
  n s1 j1 = n s2 j2 /\ m s1 j1 = m s2 j2 /\
  h s1 j1 = h s2 j2 /\ p s1 j1 = p s2 j2 /\
  map (fun v => v j1) (voltages s1) = map (fun v => v j2) (voltages s2).

Lemma step_agree (s1 : @State J1) (s2 : @State J2) (it : nat * R) :
  agree s1 s2 ->
  agree
    (step T dt pad I g_Na1 g_K1 g_M1 g_leak1 tau_max1 V_t1 sigma1 E_leak1
       randn1 s1 it)
    (step T dt pad I g_Na2 g_K2 g_M2 g_leak2 tau_max2 V_t2 sigma2 E_leak2
       randn2 s2 it).
Proof.
  destruct it as [i t].
  destruct same_parameters as (HNa & HK & HM & Hl & Htm & HVt & Hsg & HEl).
  intros (HV & HVr & Hn & Hm & Hh & Hp & Hvs).
  assert (Htau : tau_V g_Na1 g_K1 g_M1 g_leak1 s1 j1
                 = tau_V g_Na2 g_K2 g_M2 g_leak2 s2 j2).
  { unfold tau_V. now rewrite HNa, HK, HM, Hl, Hn, Hm, Hh, Hp. }
  assert (Hinf : V_inf T dt pad I g_Na1 g_K1 g_M1 g_leak1 sigma1 E_leak1
                   randn1 i t s1 j1
                 = V_inf T dt pad I g_Na2 g_K2 g_M2 g_leak2 sigma2 E_leak2
                     randn2 i t s2 j2).
  { unfold V_inf. rewrite Htau.
    now rewrite HNa, HK, HM, Hl, Hsg, HEl, Hn, Hm, Hh, Hp, same_draws. }
  assert (HV' : V (step T dt pad I g_Na1 g_K1 g_M1 g_leak1 tau_max1 V_t1
                     sigma1 E_leak1 randn1 s1 (i, t)) j1
                = V (step T dt pad I g_Na2 g_K2 g_M2 g_leak2 tau_max2 V_t2
                       sigma2 E_leak2 randn2 s2 (i, t)) j2).
  { cbn [step V]. now rewrite Hinf, Htau, HV. }
  unfold agree. cbn [step V V_rel n m h p voltages] in *.
  split; [exact HV' |]. rewrite HV', HVt, Htm, Hn, Hm, Hh, Hp.
  repeat split; try reflexivity.
  rewrite !map_app. cbn [map]. rewrite Hvs, ?HV'. reflexivity.
Qed.

Lemma iterations_agree (timesteps : list R) :
  agree
    (iterations T dt pad V_0 I g_Na1 g_K1 g_M1 g_leak1 tau_max1 V_t1 sigma1
       E_leak1 randn1 timesteps)
    (iterations T dt pad V_0 I g_Na2 g_K2 g_M2 g_leak2 tau_max2 V_t2 sigma2
       E_leak2 randn2 timesteps).
Proof.
  unfold iterations.
  assert (H0 : agree (init V_0 V_t1) (init V_0 V_t2)).
  { destruct same_parameters as (_ & _ & _ & _ & _ & HVt & _ & _).
    unfold agree. cbn [init V V_rel n m h p voltages]. rewrite HVt.
    repeat split; reflexivity. }
  revert H0. generalize (init (J := J1) V_0 V_t1) (init (J := J2) V_0 V_t2).
  induction (enumerate timesteps) as [| it its IH]; intros s1 s2 H;
    [exact H |].
  cbn [fold_left]. apply IH, step_agree, H.
Qed.

End Locality.

(** X11.  A row of the trace depends on nothing but its own parameter
    vector (the first 8 entries) and its own random draws: whatever else
    is in the batches, two calls with the same constants give the same
    row wherever these agree.  In particular a batched call returns, row
    by row, what the calls on the single parameter vectors return. *)
Theorem trace_rows_independent {B1 B2 : Type}
    (theta1 : ndarray B1 R) (theta2 : ndarray B2 R)
    (constants : gmap string R)
    (randn1 : nat -> unit * B1 -> R) (randn2 : nat -> unit * B2 -> R)
    (x1 : ndarray B1 R) (x2 : ndarray B2 R) (b1 : B1) (b2 : B2) :
  (forall i : nat, (i < 8)%nat ->
                   nth i (row theta1 b1) 0 = nth i (row theta2 b2) 0) ->
  (forall i : nat, randn1 i (tt, b1) = randn2 i (tt, b2)) ->
  voltage_trace theta1 constants randn1 = Some x1 ->
  voltage_trace theta2 constants randn2 = Some x2 ->
  row x1 b1 = row x2 b2.
Proof.
  intros Htheta Hdraws Hx1 Hx2.
  destruct (voltage_trace_inv _ _ _ _ Hx1)
    as (T & dt & pad & V_0 & I & HT & Hdt & Hpad & HV & HI & _ & _ & Hrow1).
  destruct (voltage_trace_inv _ _ _ _ Hx2)
    as (T' & dt' & pad' & V_0' & I' & HT' & Hdt' & Hpad' & HV' & HI' & _ & _
        & Hrow2).
  assert (T' = T) by congruence. assert (dt' = dt) by congruence.
  assert (pad' = pad) by congruence. assert (V_0' = V_0) by congruence.
  assert (I' = I) by congruence. subst T' dt' pad' V_0' I'.
  rewrite Hrow1, Hrow2.
  apply (iterations_agree T dt pad V_0 I _ _ _ _ _ _ _ _ _ _ _ _ _ _ _ _
           randn1 randn2 (tt, b1) (tt, b2)).
  - unfold parameter. cbn [snd]. repeat split; apply Htheta; lia.
  - exact Hdraws.
Qed.

(** ** The spike count at its edges *)

Lemma clip_length (x : list R) : length (clip x) = length x.
Proof. unfold clip. apply length_map. Qed.

Lemma filter_none {A : Type} (f : A -> bool) (l : list A) :
  (forall a : A, In a l -> f a = false) -> List.filter f l = [].
Proof.
  induction l as [| a l IH]; intros H; [reflexivity |].
  cbn [List.filter]. rewrite (H a) by (left; reflexivity).
  apply IH. intros a' Ha'. apply H. now right.
Qed.

Lemma filter_length_le' {A : Type} (f : A -> bool) (l : list A) :
  (length (List.filter f l) <= length l)%nat.
Proof.
  induction l as [| a l IH]; [reflexivity |].
  cbn [List.filter]. destruct (f a); simpl; lia.
Qed.

Lemma spike_count_le (x : list R) : (spike_count x <= length x - 2)%nat.
Proof.
  rewrite spike_count_by_index. unfold negative_second_differences.
  etransitivity; [apply filter_length_le' |].
  now rewrite length_seq, clip_length.
Qed.

(** A trace whose clipped version is flat has no spike. *)
Lemma spike_count_flat (x : list R) (v : R) :
  (forall i : nat, (i < length x)%nat -> nth i (clip x) 0 = v) ->
  spike_count x = 0%nat.
Proof.
  intros Hflat. rewrite spike_count_by_index.
  unfold negative_second_differences. rewrite filter_none; [reflexivity |].
  intros i Hi. apply in_seq in Hi. rewrite clip_length in Hi.
  unfold sign_of_difference.
  rewrite !Hflat by lia.
  replace (v - v) with 0 by lra. rewrite sign_zero.
  apply Rltb_false. lra.
Qed.

Lemma clip_nth (x : list R) (i : nat) :
  (i < length x)%nat -> nth i (clip x) 0 = Rmax (nth i x 0) (-10).
Proof.
  intros Hi. unfold clip. set (f := fun v => Rmax v (-10)).
  rewrite (nth_indep _ 0 (f 0)) by now rewrite length_map.
  apply map_nth.
Qed.

(** X12.  The spike count of a trace of [T] samples is at most [T - 2],
    so a trace of fewer than 3 samples has none; and a trace that never
    rises above -10, the level at which [summarize] clips, has none,
    however it moves below that level. *)
Theorem spike_count_edges (x : list R) :
  (spike_count x <= length x - 2)%nat /\
  (Forall (fun v => v <= -10) x -> spike_count x = 0%nat).
Proof.
  split; [apply spike_count_le |]. intros Hlow.
  apply (spike_count_flat x (-10)). intros i Hi.
  rewrite clip_nth by exact Hi. apply Rmax_right.
  rewrite Forall_forall in Hlow. apply Hlow. apply list_elem_of_In.
  now apply nth_In.
Qed.

(** ** The summary of a flat trace *)

Lemma sum_repeat (c : R) (k : nat) : np.sum (repeat c k) = INR k * c.
Proof.
  induction k as [| k IH]; [simpl; lra |].
  cbn [repeat np.sum fold_right]. fold (np.sum (repeat c k)).
  rewrite IH, S_INR. lra.
Qed.

Lemma mean_repeat (c : R) (k : nat) : np.mean (repeat c (S k)) = Fin c.
Proof.
  unfold np.mean. rewrite sum_repeat, repeat_length.
  cbn [np.over_count]. f_equal.
  pose proof (pos_INR k). rewrite S_INR. field. lra.
Qed.

Lemma var_repeat (c : R) (k : nat) : np.var (repeat c (S k)) = Fin 0.
Proof.
  unfold np.var. rewrite sum_repeat, repeat_length.
  pose proof (pos_INR k) as Hk.
  replace (INR (S k) * c / INR (S k)) with c by (rewrite S_INR; field; lra).
  replace (map (fun v => (v - c) ^ 2) (repeat c (S k)))
    with (repeat 0 (S k)).
  2:{ rewrite map_repeat. f_equal. ring. }
  rewrite sum_repeat. cbn [np.over_count]. f_equal.
  rewrite S_INR. field. lra.
Qed.

Lemma std_repeat (c : R) (k : nat) : np.std (repeat c (S k)) = Fin 0.
Proof.
  unfold np.std. rewrite var_repeat. unfold np.sqrt.
  replace (Rltb 0 0) with false by (symmetry; apply Rltb_false; lra).
  now rewrite sqrt_0.
Qed.

Lemma select_repeat {A : Type} (mask : list bool) (c : A) :
  np.select mask (repeat c (length mask)) = repeat c (np.count mask).
Proof.
  unfold np.count. induction mask as [| b mask IH]; [reflexivity |].
  cbn [length repeat np.select List.filter]. destruct b; cbn [length repeat];
    now rewrite IH.
Qed.

Lemma count_pos (mask : list bool) :
  In true mask -> exists k : nat, np.count mask = S k.
Proof.
  unfold np.count. induction mask as [| b mask IH]; intros H; [destruct H |].
  cbn [List.filter]. destruct b; cbn [length]; [eauto |].
  destruct H as [H | H]; [discriminate | now apply IH].
Qed.

Lemma window_count_pos (lo hi T dt : R) :
  (exists k : nat, (k < grid_length T dt)%nat /\ lo <= INR k * dt < hi) ->
  exists c : nat,
    np.count (map (fun t => Rleb lo t && Rltb t hi) (grid T dt)) = S c.
Proof.
  intros (k & Hk & Hlo & Hhi). apply count_pos.
  apply in_map_iff. exists (INR k * dt). split.
  - apply andb_true_intro. split; [now apply Rleb_true | now apply Rltb_true].
  - rewrite <- (grid_nth T dt k Hk). apply nth_In.
    now rewrite grid_length_eq.
Qed.


(** ** The prior *)

Lemma lower_below_upper : Forall2 Rlt lower upper.
Proof. unfold lower, upper, bounds. cbn [map fst snd]. repeat constructor; lra. Qed.

Lemma select_Forall2 {A : Type} (P : A -> A -> Prop) (mask : list bool)
    (l u : list A) :
  Forall2 P l u -> Forall2 P (np.select mask l) (np.select mask u).
Proof.
  intros H. revert mask. induction H as [| a c l u Hac _ IH]; intros mask.
  - destruct mask; constructor.
  - destruct mask as [| [|] mask]; cbn [np.select];
      [constructor | constructor; [exact Hac | apply IH] | apply IH].
Qed.

Lemma select_length {A : Type} (mask : list bool) (l : list A) :
  length mask = length l -> length (np.select mask l) = np.count mask.
Proof.
  unfold np.count. revert l. induction mask as [| c mask IH]; intros l Hl;
    [reflexivity |].
  destruct l as [| a l]; [discriminate |].
  cbn [np.select List.filter]. destruct c; cbn [length]; rewrite IH;
    simpl in Hl; lia.
Qed.

(** X14.  The indexing in [hh_prior] raises exactly for a mask that does
    not have one entry per parameter (8).  Otherwise [JointUniform] is
    called with the bounds of the selected parameters: as many as the
    mask selects (all 8 without a mask), lower and upper bounds in the
    same number, each lower bound strictly below its upper bound. *)
Theorem hh_prior_box (mask : option (list bool)) :
  (is_Some (hh_prior mask) <->
   mask = None \/ exists m : list bool, mask = Some m /\ length m = 8%nat) /\
  forall box : JointUniform,
    hh_prior mask = Some box ->
    length (low box)
    = match mask with Some m => np.count m | None => 8%nat end /\
    length (high box) = length (low box) /\
    Forall2 Rlt (low box) (high box).
Proof.
  destruct mask as [m |]; cbn [hh_prior].
  - unfold torch.index_mask.
    change (length lower) with 8%nat. change (length upper) with 8%nat.
    destruct (decide (length m = 8%nat)) as [Hm | Hm]; cbn [mbind option_bind].
    + split; [split; eauto |].
      intros box [= <-]. cbn [low high].
      rewrite !select_length by exact Hm.
      split; [reflexivity |]. split; [reflexivity |].
      apply select_Forall2, lower_below_upper.
    + split; [| discriminate]. split.
      * intros [? [=]].
      * intros [[=] | (m' & [= <-] & Hm')]. contradiction.
  - split; [split; eauto |].
    intros box [= <-]. cbn [low high]. split; [reflexivity |].
    split; [reflexivity |]. apply lower_below_upper.
Qed.

(** ** Parameters from the box of the prior *)

Lemma in_bounds_positive {B : Type} (theta : ndarray B R) (b : B) :
  in_bounds (row theta b) ->
  1e-4 <= parameter theta 0 (tt, b) /\ 1e-4 <= parameter theta 1 (tt, b) /\
  1e-4 <= parameter theta 2 (tt, b) /\ 1e-4 <= parameter theta 3 (tt, b) /\
  50 <= parameter theta 4 (tt, b).
Proof.
  intros H. unfold parameter. cbn [snd].
  pose proof (H 0%nat ltac:(lia)) as H0. pose proof (H 1%nat ltac:(lia)) as H1.
  pose proof (H 2%nat ltac:(lia)) as H2. pose proof (H 3%nat ltac:(lia)) as H3.
  pose proof (H 4%nat ltac:(lia)) as H4.
  unfold lower, upper, bounds in *. cbn [map fst snd nth] in *.
  repeat split; lra.
Qed.

(** X15.  Every batch of parameter vectors from the box of the prior is
    physically valid for the simulator: in a run with a positive time
    step the gating variables stay strictly between 0 and 1 and the
    membrane time constant [tau_V] stays positive and at most 10000 (the
    capacitance over the smallest leak conductance of the box). *)
Theorem prior_box_is_valid {B : Type} (theta : ndarray B R)
    (T dt pad V_0 I : R) (randn : nat -> unit * B -> R)
    (timesteps : list R) (k : nat) (b : B) :
  0 < dt ->
  (forall b' : B, in_bounds (row theta b')) ->
  let s :=
    state_after T dt pad V_0 I
      (parameter theta 0) (parameter theta 1) (parameter theta 2)
      (parameter theta 3) (parameter theta 4) (parameter theta 5)
      (parameter theta 6) (parameter theta 7) randn timesteps k in
  gates_in_unit s /\
  0 < tau_V (parameter theta 0) (parameter theta 1) (parameter theta 2)
        (parameter theta 3) s (tt, b) <= 10000.
Proof.
  intros Hdt Hbox s.
  assert (Hpos : forall j : unit * B,
             1e-4 <= parameter theta 0 j /\ 1e-4 <= parameter theta 1 j /\
             1e-4 <= parameter theta 2 j /\ 1e-4 <= parameter theta 3 j /\
             50 <= parameter theta 4 j).
  { intros [[] b']. apply in_bounds_positive, Hbox. }
  assert (Hs : gates_in_unit s).
  { unfold s, state_after. apply fold_gates_in_unit; [exact Hdt | |].
    - intros j. destruct (Hpos j) as (_ & _ & _ & _ & ?). lra.
    - apply init_gates_in_unit. }
  split; [exact Hs |].
  destruct (Hpos (tt, b)) as (HNa & HK & HM & Hl & _).
  destruct (Hs (tt, b)) as (Hn & Hm & Hh & Hp).
  split; [apply tau_V_pos; auto; lra |].
  unfold tau_V, C.
  set (g_Na := parameter theta 0 (tt, b)) in *.
  set (g_K := parameter theta 1 (tt, b)) in *.
  set (g_M := parameter theta 2 (tt, b)) in *.
  set (g_leak := parameter theta 3 (tt, b)) in *.
  assert (0 < m s (tt, b) ^ 3) by (apply pow_lt; lra).
  assert (0 < n s (tt, b) ^ 4) by (apply pow_lt; lra).
  assert (0 < g_Na * m s (tt, b) ^ 3 * h s (tt, b))
    by (apply Rmult_lt_0_compat; [apply Rmult_lt_0_compat |]; lra).
  assert (0 < g_K * n s (tt, b) ^ 4) by (apply Rmult_lt_0_compat; lra).
  assert (0 < g_M * p s (tt, b)) by (apply Rmult_lt_0_compat; lra).
  set (G := g_Na * m s (tt, b) ^ 3 * h s (tt, b) + g_K * n s (tt, b) ^ 4
            + g_M * p s (tt, b) + g_leak) in *.
  assert (HG : 1e-4 <= G) by (unfold G; lra).
  apply Rmult_le_reg_r with G; [lra |].
  unfold Rdiv. rewrite Rmult_assoc, Rinv_l by lra. lra.
Qed.

(** ** The further properties at work on the examples *)

Lemma short_run_trace {B : Type} (theta : ndarray B R)
    (randn : nat -> unit * B -> R) :
  axis_len theta = 8%nat ->
  exists x : ndarray B R,
    voltage_trace theta short_run randn = Some x /\ axis_len x = 8%nat.
Proof.
  intros H8.
  destruct (voltage_trace_result theta short_run randn 8 1 2 (-70) 0)
    as (x & Hx & Hlen & _);
    [reflexivity | reflexivity | reflexivity | reflexivity | reflexivity
    | exact H8 | lra | lra |].
  exists x. split; [exact Hx |]. now rewrite Hlen, grid_length_short_run.
Qed.

Lemma midpoint_in_bounds (b : unit) : in_bounds (row midpoint b).
Proof.
  intros i Hi. unfold lower, upper, bounds, midpoint. cbn [row map fst snd].
  do 8 (destruct i as [| i]; [cbn [nth]; lra |]). lia.
Qed.

(** The first iteration of the short run: [V_rel] is the new [V] less
    [V_t], and the new [V] is the first sample of the trace. *)
Lemma loop_body_exponential_update_witness :
  exists x : ndarray unit R,
    voltage_trace midpoint short_run (fun _ _ => 0) = Some x /\
    let s' :=
      iterations 8 1 2 (-70) 0
        (parameter midpoint 0) (parameter midpoint 1) (parameter midpoint 2)
        (parameter midpoint 3) (parameter midpoint 4) (parameter midpoint 5)
        (parameter midpoint 6) (parameter midpoint 7)
        (fun _ _ => 0) (firstn 1 (grid 8 1)) in
    V_rel s' (tt, tt) = V s' (tt, tt) - parameter midpoint 5 (tt, tt) /\
    nth 0 (row x tt) 0 = V s' (tt, tt).
Proof.
  destruct (short_run_trace midpoint (fun _ _ => 0) eq_refl)
    as (x & Hx & Hlen).
  exists x. split; [exact Hx |].
  assert (Hk : (0 < axis_len x)%nat) by (rewrite Hlen; lia).
  pose proof (loop_body_exponential_update midpoint short_run (fun _ _ => 0)
                8 1 2 (-70) 0 x tt 0 eq_refl eq_refl eq_refl eq_refl eq_refl
                Hx Hk) as H.
  cbv zeta in H. cbv zeta.
  destruct H as (_ & _ & _ & HVrel & _ & _ & _ & _ & _ & _ & Hsample).
  split; [exact HVrel | exact Hsample].
Defined.

(** A call with the default constants returns a summary of 7 numbers. *)
Lemma call_result_witness :
  exists y : ndarray unit float,
    HH.__call__ (HH.__init__ None ∅) midpoint (fun _ _ => 0)
    = Some (HH.Summary y) /\
    axis_len y = 7%nat.
Proof.
  destruct (proj2 (call_is_Some None ∅ midpoint (fun _ _ => 0)))
    as [out Hout].
  { unfold HH.get. rewrite !lookup_empty. cbn [axis_len midpoint].
    split; [lia |]. split; lra. }
  pose proof (call_result None ∅ midpoint (fun _ _ => 0) out Hout) as H.
  destruct out as [x | y].
  - destruct H as [H _]. discriminate H.
  - exists y. split; [exact Hout | exact (proj1 (proj2 H))].
Defined.

(** The first sample of the short run is the voltage after the first
    iteration. *)
Lemma trace_samples_follow_loop_witness :
  exists x : ndarray unit R,
    voltage_trace midpoint short_run (fun _ _ => 0) = Some x /\
    nth 0 (row x tt) 0 = V (short_run_state 1) (tt, tt).
Proof.
  destruct (short_run_trace midpoint (fun _ _ => 0) eq_refl)
    as (x & Hx & Hlen).
  exists x. split; [exact Hx |].
  refine (proj1 (trace_samples_follow_loop midpoint short_run (fun _ _ => 0)
                   8 1 2 (-70) 0 x tt 0 _ _ _ _ _ Hx _));
    [reflexivity | reflexivity | reflexivity | reflexivity | reflexivity |].
  rewrite Hlen. lia.
Defined.

(** In the first iteration of the short run [p] moves towards its steady
    state and not beyond. *)
Lemma update_without_overshoot_witness :
  let s := short_run_state 0 in
  let s' := short_run_state 1 in
  Rmin (p_inf (V s' (tt, tt))) (p s (tt, tt)) <= p s' (tt, tt)
    <= Rmax (p_inf (V s' (tt, tt))) (p s (tt, tt)).
Proof.
  refine (proj2 (proj2 (proj2 (proj2
    (update_without_overshoot 8 1 2 (-70) 0
       (parameter midpoint 0) (parameter midpoint 1) (parameter midpoint 2)
       (parameter midpoint 3) (parameter midpoint 4) (parameter midpoint 5)
       (parameter midpoint 6) (parameter midpoint 7)
       (fun _ _ => 0) _ _ _ (grid 8 1) 0 (tt, tt) _))))).
  - lra.
  - intros j. unfold parameter, midpoint. cbn [row nth]. lra.
  - intros j. unfold parameter, midpoint. cbn [row nth]. lra.
  - rewrite grid_length_eq, grid_length_short_run. lia.
Defined.

(** Without noise and without current the voltage of the short run stays
    between the reversal potentials of potassium and sodium. *)
Lemma noiseless_voltage_bounded_witness :
  -107 <= V (state_after 8 1 2 (-70) 0
               (parameter noiseless 0) (parameter noiseless 1)
               (parameter noiseless 2) (parameter noiseless 3)
               (parameter noiseless 4) (parameter noiseless 5)
               (parameter noiseless 6) (parameter noiseless 7)
               (fun _ _ => 0) (grid 8 1) 5) (tt, tt) <= 53.
Proof.
  refine (noiseless_voltage_bounded 8 1 2 (-70) 0
            (parameter noiseless 0) (parameter noiseless 1)
            (parameter noiseless 2) (parameter noiseless 3)
            (parameter noiseless 4) (parameter noiseless 5)
            (parameter noiseless 6) (parameter noiseless 7)
            (fun _ _ => 0) _ _ _ (grid 8 1) 5 (tt, tt) (-107) 53
            _ _ _ _ _ _);
    try (intros j); unfold parameter, noiseless, E_K, E_Na;
    cbn [row nth snd]; rewrite ?Rabs_R0; lra.
Defined.


(** Objects with the keyword arguments of the short run, with current 0
    and with current 1, report the same resting statistics. *)
Lemma resting_statistics_ignore_current_witness :
  exists y y' : ndarray unit float,
    HH.__call__ (HH.__init__ None short_run) midpoint (fun _ _ => 0)
    = Some (HH.Summary y) /\
    HH.__call__ (HH.__init__ None (<["current" := 1]> short_run)) midpoint
      (fun _ _ => 0)
    = Some (HH.Summary y') /\
    nth 1 (row y tt) NaN = nth 1 (row y' tt) NaN /\
    nth 2 (row y tt) NaN = nth 2 (row y' tt) NaN.
Proof.
  destruct (init_lookups None short_run) as (HT & Hdt & Hpad & HV & HI).
  destruct (init_lookups None (<["current" := 1]> short_run))
    as (HT' & Hdt' & Hpad' & HV' & HI').
  destruct (call_summary_shape _ midpoint (fun _ _ => 0) _ _ _ _ _
              HT Hdt Hpad HV HI eq_refl) as (y & Hy & _);
    [change (0 < 8); lra | change (0 < 1); lra | reflexivity |].
  destruct (call_summary_shape _ midpoint (fun _ _ => 0) _ _ _ _ _
              HT' Hdt' Hpad' HV' HI' eq_refl) as (y' & Hy' & _);
    [change (0 < 8); lra | change (0 < 1); lra | reflexivity |].
  exists y, y'. split; [exact Hy |]. split; [exact Hy' |].
  refine (resting_statistics_ignore_current None short_run 1 midpoint
            (fun _ _ => 0) y y' tt _ Hy Hy').
  change (0 < 1). lra.
Defined.

(** The row of [midpoint] in a batch of two is the trace of [midpoint]
    alone. *)
Lemma trace_rows_independent_witness :
  exists (x1 : ndarray unit R) (x2 : ndarray bool R),
    voltage_trace midpoint short_run (fun _ _ => 0) = Some x1 /\
    voltage_trace two_vectors short_run (fun _ _ => 0) = Some x2 /\
    row x1 tt = row x2 true.
Proof.
  destruct (short_run_trace midpoint (fun _ _ => 0) eq_refl)
    as (x1 & Hx1 & _).
  destruct (short_run_trace two_vectors (fun _ _ => 0) eq_refl)
    as (x2 & Hx2 & _).
  exists x1, x2. split; [exact Hx1 |]. split; [exact Hx2 |].
  refine (trace_rows_independent midpoint two_vectors short_run
            (fun _ _ => 0) (fun _ _ => 0) x1 x2 tt true _ _ Hx1 Hx2);
    reflexivity.
Defined.

(** Two samples at rest hold no spike. *)
Lemma spike_count_edges_witness : spike_count (row at_rest tt) = 0%nat.
Proof.
  pose proof (proj1 (spike_count_edges (row at_rest tt))) as H.
  change (spike_count (row at_rest tt) <= 0)%nat in H. lia.
Defined.


(** A mask that selects the two leak parameters gives a box of two
    dimensions. *)
Lemma hh_prior_box_witness :
  exists box : JointUniform,
    hh_prior (Some [false; false; false; true; false; false; false; true])
    = Some box /\
    length (low box) = 2%nat /\
    Forall2 Rlt (low box) (high box).
Proof.
  pose (mask := [false; false; false; true; false; false; false; true]).
  destruct (hh_prior_box (Some mask)) as [Hsome Hbox].
  destruct (proj2 Hsome) as [box Hprior];
    [right; exists mask; split; reflexivity |].
  exists box. split; [exact Hprior |].
  destruct (Hbox box Hprior) as (Hlow & _ & Hlt).
  split; [exact Hlow | exact Hlt].
Defined.

(** The gates of [midpoint], which lies in the box, stay in the unit
    interval over the short run, and [tau_V] below 10000. *)
Lemma prior_box_is_valid_witness :
  gates_in_unit (short_run_state 3) /\
  0 < tau_V (parameter midpoint 0) (parameter midpoint 1)
        (parameter midpoint 2) (parameter midpoint 3) (short_run_state 3)
        (tt, tt) <= 10000.
Proof.
  refine (prior_box_is_valid midpoint 8 1 2 (-70) 0 (fun _ _ => 0)
            (grid 8 1) 3 tt _ midpoint_in_bounds).
  lra.
Defined.
